(** * kale-insertion: the escape-word engine of [src/extension.ts]

    A shallow embedding of the class [UnicodeMaths]: the token locator
    ([evalPosition], [getWordRangeAtPosition]), the classifier and expander
    ([doWord], [mapToSubSup], [mapToBoldIt], [mapTo]) and the completion
    matcher ([provideCompletionItems]), followed by the properties the
    specification states about them. *)

From Stdlib Require Import List NArith ZArith Bool String Ascii Lia.
Import ListNotations.

Local Open Scope Z_scope.

(** ** JavaScript strings

    A JavaScript string is a sequence of UTF-16 code units; [length],
    [charAt], [slice], [split] and the other methods all count code units.
    Indices are [Z]: [lastIndexOf] answers [-1] and [slice] accepts
    negative offsets. *)

Module JSString.

Definition code_unit := N.
Definition jsstring := list code_unit.

(** An ASCII literal of the source, as code units. *)
Definition js (s : string) : jsstring :=
  List.map N_of_ascii (list_ascii_of_string s).

Definition length (s : jsstring) : Z := Z.of_nat (List.length s).

Fixpoint eqb (s t : jsstring) : bool :=
  match s, t with
  | [], [] => true
  | c :: s', d :: t' => N.eqb c d && eqb s' t'
  | _, _ => false
  end.

(** [s.charAt(i)]: the one-unit string at index [i], or [''] out of range. *)
Definition charAt (s : jsstring) (i : Z) : jsstring :=
  if (i <? 0) || (length s <=? i) then []
  else match nth_error s (Z.to_nat i) with
       | Some c => [c]
       | None => []
       end.

(** [s.slice(start)]: a negative [start] counts from the end; both ends
    are clamped to the string. *)
Definition slice (s : jsstring) (start : Z) : jsstring :=
  let len := length s in
  let from := if start <? 0 then Z.max (len + start) 0 else Z.min start len in
  skipn (Z.to_nat from) s.

(** [s.substring(a, b)]: each index clamped to [0, length], the two swapped
    when [a > b]. *)
Definition substring (s : jsstring) (a b : Z) : jsstring :=
  let len := length s in
  let a' := Z.min (Z.max a 0) len in
  let b' := Z.min (Z.max b 0) len in
  let lo := Z.min a' b' in
  let hi := Z.max a' b' in
  firstn (Z.to_nat (hi - lo)) (skipn (Z.to_nat lo) s).

(** [s.startsWith(p)]: unit-by-unit comparison, no folding of case. *)
Fixpoint startsWith (s p : jsstring) {struct p} : bool :=
  match p, s with
  | [], _ => true
  | d :: p', c :: s' => N.eqb c d && startsWith s' p'
  | _ :: _, [] => false
  end.

(** [s.includes(p)]: [p] occurs at some offset of [s]. *)
Fixpoint includes (s p : jsstring) : bool :=
  startsWith s p ||
  match s with
  | [] => false
  | _ :: s' => includes s' p
  end.

(** [s.lastIndexOf(p)]: the greatest offset at which [p] occurs, [-1] when
    there is none.  [lastIndexOf_from s p i] searches [s], whose first unit
    sits at offset [i] of the whole string. *)
Fixpoint lastIndexOf_from (s p : jsstring) (i : Z) : Z :=
  match s with
  | [] => if startsWith [] p then i else -1
  | _ :: s' =>
      let later := lastIndexOf_from s' p (i + 1) in
      if 0 <=? later then later
      else if startsWith s p then i else -1
  end.

Definition lastIndexOf (s p : jsstring) : Z := lastIndexOf_from s p 0.

(** [s.split('')]: one string per code unit (a surrogate pair is cut in
    two). *)
Definition split_units (s : jsstring) : list jsstring :=
  List.map (fun c => [c]) s.

(** [s.split(sep)] for a separator of one code unit: the pieces between
    the occurrences of [sep]; a string without [sep] is its only piece. *)
Fixpoint split_at (sep : code_unit) (s : jsstring) : list jsstring :=
  match s with
  | [] => [[]]
  | c :: s' =>
      if N.eqb c sep then [] :: split_at sep s'
      else match split_at sep s' with
           | piece :: pieces => (c :: piece) :: pieces
           | [] => [[c]]
           end
  end.

(** [parts.join('')]. *)
Definition join (parts : list jsstring) : jsstring := List.concat parts.

(** White space and line terminators of ECMAScript, the units [trim]
    strips: TAB, LF, VT, FF, CR, SP, NBSP, the Unicode space separators,
    LS, PS and the byte order mark. *)
Definition isWhiteSpace (c : code_unit) : bool :=
  ((9 <=? c) && (c <=? 13) ||
   (c =? 32) || (c =? 160) || (c =? 5760) ||
   (8192 <=? c) && (c <=? 8202) ||
   (c =? 8232) || (c =? 8233) || (c =? 8239) || (c =? 8287) ||
   (c =? 12288) || (c =? 65279))%N.

Fixpoint trimStart (s : jsstring) : jsstring :=
  match s with
  | [] => []
  | c :: s' => if isWhiteSpace c then trimStart s' else s
  end.

Definition trimEnd (s : jsstring) : jsstring := rev (trimStart (rev s)).

Definition trim (s : jsstring) : jsstring := trimEnd (trimStart s).

(** A string is falsy exactly when it is empty. *)
Definition truthy (s : jsstring) : bool :=
  match s with
  | [] => false
  | _ :: _ => true
  end.

End JSString.
Import JSString.

(** The code units the classifier tests for. *)
Definition backslash : code_unit := 92%N.
Definition colon : code_unit := 58%N.

(** ** Objects used as tables

    An object of type [{[key: string]: string}] is its list of own
    properties, in the order in which [Object.keys] enumerates them.
    [get o k] is [o[k]]: [None] stands for [undefined].  For a word that
    begins with a backslash, as the locator delivers it, every key looked
    up is one code unit long, begins with a backslash or is a key of the
    table, so no lookup reaches a property inherited from
    [Object.prototype]. *)

Definition object := list (jsstring * jsstring).

Fixpoint get (o : object) (k : jsstring) : option jsstring :=
  match o with
  | [] => None
  | (k', v) :: o' => if eqb k' k then Some v else get o' k
  end.

Definition Object_keys (o : object) : list jsstring := List.map fst o.

(** [v || alt] where [alt] is a string: [undefined] and [''] are falsy. *)
Definition or_string (v : option jsstring) (alt : jsstring) : jsstring :=
  match v with
  | Some s => if truthy s then s else alt
  | None => alt
  end.

(** [v || null]; [None] stands for [null] in a result of type
    [string | null]. *)
Definition or_null (v : option jsstring) : option jsstring :=
  match v with
  | Some s => if truthy s then Some s else None
  | None => None
  end.

(** [v + c] where [v] may be [undefined]. *)
Definition plus (v : option jsstring) (c : jsstring) : jsstring :=
  match v with
  | Some s => s ++ c
  | None => js "undefined" ++ c
  end.

(** ** Exceptions

    A computation either completes normally or throws; [try_catch] is the
    [try { } catch (e) { }] statement. *)

Inductive exn : Type :=
| IllegalArgument (msg : string)
| TypeError (msg : string).

Inductive completion (A : Type) : Type :=
| Normal (a : A)
| Throw (e : exn).

Arguments Normal {A} a.
Arguments Throw {A} e.

Definition bind {A B : Type} (m : completion A) (k : A -> completion B)
  : completion B :=
  match m with
  | Normal a => k a
  | Throw e => Throw e
  end.

Definition try_catch {A : Type} (m : completion A) (handler : exn -> completion A)
  : completion A :=
  match m with
  | Normal a => Normal a
  | Throw e => handler e
  end.

Notation "x <- m ;; k" := (bind m (fun x => k))
  (at level 61, m at next level, right associativity).

(** ** The editor host

    The part of the [vscode] API the locator calls, as the API documents
    it: positions and ranges, and the text of a range of a document. *)

Module VSCode.

Record Position : Type := mkPosition { line : Z; character : Z }.

(** [new Position(line, character)] rejects a negative component. *)
Definition new_Position (l c : Z) : completion Position :=
  if l <? 0 then Throw (IllegalArgument "line must be non-negative")
  else if c <? 0 then Throw (IllegalArgument "character must be non-negative")
  else Normal (mkPosition l c).

Definition isBefore (a b : Position) : bool :=
  (line a <? line b) || ((line a =? line b) && (character a <? character b)).

(** [p.translate(undefined, characterDelta)]: the line delta defaults
    to 0. *)
Definition translate (p : Position) (characterDelta : Z) : completion Position :=
  if characterDelta =? 0 then Normal p
  else new_Position (line p) (character p + characterDelta).

Record Range : Type := mkRange { start : Position; end_ : Position }.

(** [new Range(a, b)] orders its two ends. *)
Definition new_Range (a b : Position) : Range :=
  if isBefore a b then mkRange a b else mkRange b a.

Definition isEmpty (r : Range) : bool :=
  (line (start r) =? line (end_ r)) && (character (start r) =? character (end_ r)).

Record TextDocument : Type := mkTextDocument { lines : list jsstring; eol : jsstring }.

Definition lineCount (d : TextDocument) : Z := Z.of_nat (List.length (lines d)).

Definition lineAt (d : TextDocument) (l : Z) : jsstring :=
  nth (Z.to_nat l) (lines d) [].

(** A position outside the document is moved to the nearest one inside. *)
Definition validatePosition (d : TextDocument) (p : Position) : Position :=
  if lineCount d =? 0 then mkPosition 0 0
  else if line p <? 0 then mkPosition 0 0
  else if lineCount d <=? line p then
    mkPosition (lineCount d - 1) (length (lineAt d (lineCount d - 1)))
  else
    let maxCharacter := length (lineAt d (line p)) in
    if character p <? 0 then mkPosition (line p) 0
    else if maxCharacter <? character p then mkPosition (line p) maxCharacter
    else p.

Definition validateRange (d : TextDocument) (r : Range) : Range :=
  new_Range (validatePosition d (start r)) (validatePosition d (end_ r)).

(** The lines strictly between [lo] and [hi]. *)
Definition linesBetween (d : TextDocument) (lo hi : Z) : list jsstring :=
  firstn (Z.to_nat (hi - lo - 1)) (skipn (Z.to_nat (lo + 1)) (lines d)).

Fixpoint joinWith (sep : jsstring) (parts : list jsstring) : jsstring :=
  match parts with
  | [] => []
  | [p] => p
  | p :: rest => p ++ sep ++ joinWith sep rest
  end.

(** [document.getText(range)]: the range is validated first; within one
    line the text is a substring of that line. *)
Definition getText (d : TextDocument) (range : Range) : jsstring :=
  let r := validateRange d range in
  if isEmpty r then []
  else if line (start r) =? line (end_ r) then
    substring (lineAt d (line (start r))) (character (start r)) (character (end_ r))
  else
    let first := slice (lineAt d (line (start r))) (character (start r)) in
    let last := substring (lineAt d (line (end_ r))) 0 (character (end_ r)) in
    joinWith (eol d)
      (first :: linesBetween d (line (start r)) (line (end_ r)) ++ [last]).

Record CompletionItem : Type := mkCompletionItem {
  label : jsstring;
  detail : option jsstring;
  insertText : option jsstring;
  range : Range
}.

End VSCode.
Import VSCode.

(** ** The superscript and subscript tables *)

Definition entry (k v : N) : jsstring * jsstring := ([k], [v]).

Definition sups : object :=
  [ entry 0x004C 0x1D38; entry 0x0049 0x1D35; entry 0x0079 0x02B8; entry 0x0039 0x2079;  (* L ᴸ | I ᴵ | y ʸ | 9 ⁹ *)
    entry 0x0030 0x2070; entry 0x03B4 0x1D5F; entry 0x0077 0x02B7; entry 0x0034 0x2074;  (* 0 ⁰ | δ ᵟ | w ʷ | 4 ⁴ *)
    entry 0x006C 0x02E1; entry 0x005A 0x1DBB; entry 0x0050 0x1D3E; entry 0x0062 0x1D47;  (* l ˡ | Z ᶻ | P ᴾ | b ᵇ *)
    entry 0x0037 0x2077; entry 0x0029 0x207E; entry 0x0068 0x02B0; entry 0x0036 0x2076;  (* 7 ⁷ | rparen ⁾ | h ʰ | 6 ⁶ *)
    entry 0x0057 0x1D42; entry 0x003D 0x207C; entry 0x03C7 0x1D61; entry 0x006D 0x1D50;  (* W ᵂ | = ⁼ | χ ᵡ | m ᵐ *)
    entry 0x002D 0x207B; entry 0x0072 0x02B3; entry 0x0070 0x1D56; entry 0x0063 0x1D9C;  (* - ⁻ | r ʳ | p ᵖ | c ᶜ *)
    entry 0x0076 0x1D5B; entry 0x0064 0x1D48; entry 0x03D5 0x1D60; entry 0x03B8 0x1DBF;  (* v ᵛ | d ᵈ | ϕ ᵠ | θ ᶿ *)
    entry 0x0031 0x00B9; entry 0x0054 0x1D40; entry 0x006F 0x1D3C; entry 0x004B 0x1D37;  (* 1 ¹ | T ᵀ | o ᴼ | K ᴷ *)
    entry 0x0065 0x1D49; entry 0x0047 0x1D33; entry 0x0074 0x1D57; entry 0x0038 0x2078;  (* e ᵉ | G ᴳ | t ᵗ | 8 ⁸ *)
    entry 0x03B2 0x1D5D; entry 0x0056 0x2C7D; entry 0x004D 0x1D39; entry 0x0073 0x02E2;  (* β ᵝ | V ⱽ | M ᴹ | s ˢ *)
    entry 0x0069 0x2071; entry 0x006B 0x1D4F; entry 0x03B1 0x1D45; entry 0x0041 0x1D2C;  (* i ⁱ | k ᵏ | α ᵅ | A ᴬ *)
    entry 0x0035 0x2075; entry 0x0032 0x00B2; entry 0x0075 0x1DB8; entry 0x0048 0x1D34;  (* 5 ⁵ | 2 ² | u ᶸ | H ᴴ *)
    entry 0x0067 0x1D4D; entry 0x0028 0x207D; entry 0x006A 0x02B2; entry 0x0066 0x1DA0;  (* g ᵍ | lparen ⁽ | j ʲ | f ᶠ *)
    entry 0x0044 0x1D30; entry 0x03B3 0x1D5E; entry 0x0055 0x1D41; entry 0x0045 0x1D31;  (* D ᴰ | γ ᵞ | U ᵁ | E ᴱ *)
    entry 0x0061 0x1D43; entry 0x004E 0x1D3A; entry 0x006E 0x207F; entry 0x0042 0x1D2E;  (* a ᵃ | N ᴺ | n ⁿ | B ᴮ *)
    entry 0x0078 0x02E3; entry 0x0033 0x00B3; entry 0x0052 0x1D3F; entry 0x002B 0x207A;  (* x ˣ | 3 ³ | R ᴿ | + ⁺ *)
    entry 0x004A 0x1D36 ].  (* J ᴶ *)

Definition subs : object :=
  [ entry 0x0031 0x2081; entry 0x0029 0x208E; entry 0x006D 0x2098; entry 0x0034 0x2084;  (* 1 ₁ | rparen ₎ | m ₘ | 4 ₄ *)
    entry 0x006A 0x2C7C; entry 0x0037 0x2087; entry 0x03B2 0x1D66; entry 0x0038 0x2088;  (* j ⱼ | 7 ₇ | β ᵦ | 8 ₈ *)
    entry 0x0032 0x2082; entry 0x0033 0x2083; entry 0x0073 0x209B; entry 0x0075 0x1D64;  (* 2 ₂ | 3 ₃ | s ₛ | u ᵤ *)
    entry 0x03C7 0x1D6A; entry 0x0035 0x2085; entry 0x0074 0x209C; entry 0x0068 0x2095;  (* χ ᵪ | 5 ₅ | t ₜ | h ₕ *)
    entry 0x002D 0x208B; entry 0x03C1 0x1D68; entry 0x002B 0x208A; entry 0x006F 0x2092;  (* - ₋ | ρ ᵨ | + ₊ | o ₒ *)
    entry 0x0076 0x1D65; entry 0x0072 0x1D63; entry 0x0036 0x2086; entry 0x0028 0x208D;  (* v ᵥ | r ᵣ | 6 ₆ | lparen ₍ *)
    entry 0x006B 0x2096; entry 0x0078 0x2093; entry 0x0039 0x2089; entry 0x003D 0x208C;  (* k ₖ | x ₓ | 9 ₉ | = ₌ *)
    entry 0x0065 0x2091; entry 0x006C 0x2097; entry 0x0069 0x1D62; entry 0x03D5 0x1D69;  (* e ₑ | l ₗ | i ᵢ | ϕ ᵩ *)
    entry 0x0061 0x2090; entry 0x0070 0x209A; entry 0x006E 0x2099; entry 0x0030 0x2080 ].  (* a ₐ | p ₚ | n ₙ | 0 ₀ *)
(** ** The class [UnicodeMaths]

    The constructor stores the primary table [codes] (the default export
    of [./symbols], a parameter here) and its keys. *)

Record UnicodeMaths : Type := mkUnicodeMaths {
  codes : object;
  keys : list jsstring
}.

Definition new_UnicodeMaths (codes : object) : UnicodeMaths :=
  mkUnicodeMaths codes (Object_keys codes).

Section Methods.

Variable this : UnicodeMaths.

(** [getWordRangeAtPosition]: a word is anything from the last backslash
    before the cursor on.  Without a backslash [slash] is [-1] and the
    construction of [start] throws. *)
Definition getWordRangeAtPosition (document : TextDocument) (position : Position)
  : completion (Range * jsstring) :=
  lineStart <- new_Position (VSCode.line position) 0 ;;
  let lnRange := new_Range lineStart position in
  let line := getText document lnRange in
  let slash := lastIndexOf line (js "\") in
  let word := trim (slice line slash) in
  start <- new_Position (VSCode.line position) slash ;;
  end_ <- translate start (length word) ;;
  Normal (new_Range start end_, word).

(** [evalPosition]: [None] is the pair [[null, null]]. *)
Definition evalPosition (document : TextDocument) (position : Position)
  : completion (option (Range * jsstring)) :=
  if character position =? 0 then Normal None
  else
    try_catch
      (rw <- getWordRangeAtPosition document position ;;
       let '(range, word) := rw in
       Normal (if negb (truthy word) || negb (startsWith word (js "\"))
               then None
               else Some (range, word)))
      (fun e => Normal None).

(** [mapToSubSup]: [None] is [null]. *)
Definition mapToSubSup (word : jsstring) (mapper : object) : option jsstring :=
  let target := slice word 2 in
  let newStr :=
    join (List.map (fun c => or_string (get mapper c) c) (split_units target)) in
  if eqb newStr target then None else Some newStr.

Definition mapToBoldIt (word : jsstring) (bold : bool) : option jsstring :=
  let target := slice word 3 in
  let codePrefix := if bold then js "\mbf" else js "\mit" in
  let newStr :=
    join (List.map (fun c => or_string (get (codes this) (codePrefix ++ c)) c)
                   (split_units target)) in
  if eqb newStr target then None else Some newStr.

(** [mapTo]: [modifier[0]] and [modifier[1]] are [undefined] outside the
    array, and [split] called on [undefined] is a [TypeError]. *)
Definition mapTo (word : jsstring) : completion (option jsstring) :=
  let modifier := split_at colon word in
  if Nat.eqb (List.length modifier) 2 then
    let mod_ := nth_error modifier 0 in
    match nth_error modifier 1 with
    | None => Throw (TypeError "Cannot read properties of undefined")
    | Some newStr =>
        let modStr :=
          join (List.map (fun c => or_string (get (codes this) (plus mod_ c)) c)
                         (split_units newStr)) in
        Normal (if eqb modStr newStr then None else Some modStr)
    end
  else Normal None.

(** [doWord]: the first branch that applies decides. *)
Definition doWord (word : jsstring) : completion (option jsstring) :=
  let startChar := charAt word 1 in
  if eqb startChar (js "_") then Normal (mapToSubSup word subs)
  else if eqb startChar (js "^") then Normal (mapToSubSup word sups)
  else if startsWith word (js "\i:") then Normal (Some (js "foo"))
  else if startsWith word (js "\b:") then Normal (mapToBoldIt word true)
  else if negb (startsWith word (js "\:")) && startsWith word (js "\")
          && includes word (js ":")
  then mapTo word
  else Normal (or_null (get (codes this) word)).

(** The items [provideCompletionItems] builds once it has a target range
    and a word: the keys that start with the word, each with its
    expansion as detail and inserted text. *)
Definition completionItemsFor (target : Range) (word : jsstring)
  : list CompletionItem :=
  let matches := List.filter (fun k => startsWith k word) (keys this) in
  List.map (fun key =>
              mkCompletionItem key (get (codes this) key) (get (codes this) key) target)
           matches.

Definition provideCompletionItems (document : TextDocument) (position : Position)
  : completion (list CompletionItem) :=
  tw <- evalPosition document position ;;
  match tw with
  | None => Normal []
  | Some (target, word) =>
      if negb (truthy word) then Normal []
      else Normal (completionItemsFor target word)
  end.

End Methods.

(** ** What the specification says, in its own words

    [mapped_char table prefix c] is the image of the character [c] as the
    specification describes it: the table entry for [prefix + c] when
    there is one, and [c] itself otherwise. *)
Definition mapped_char (table : object) (prefix : jsstring) (c : code_unit)
  : jsstring :=
  match get table (prefix ++ [c]) with
  | Some image => image
  | None => [c]
  end.

(** The same, where an entry that is the empty string counts as no entry. *)
Definition mapped_char_nonempty (table : object) (prefix : jsstring) (c : code_unit)
  : jsstring :=
  match get table (prefix ++ [c]) with
  | Some (d :: image) => d :: image
  | _ => [c]
  end.

(** The number of colons of a token. *)
Definition colons (word : jsstring) : nat :=
  List.length (List.filter (N.eqb colon) word).

(** The line text before the cursor, as the locator reads it. *)
Definition textBeforeCursor (document : TextDocument) (position : Position)
  : jsstring :=
  getText document
    (new_Range (mkPosition (VSCode.line position) 0) position).

(** The document with the given lines and LF line ends. *)
Definition document_of (ls : list jsstring) : TextDocument :=
  mkTextDocument ls [10%N].

(** [changed_or_absent result original]: the result, or absent when it
    equals the original. *)
Definition changed_or_absent (result original : jsstring) : option jsstring :=
  if list_eq_dec N.eq_dec result original then None else Some result.

(** Every value of the table is one code unit long. *)
Definition single_unit_values (o : object) : bool :=
  forallb (fun kv => match snd kv with [_] => true | _ => false end) o.

(** A small primary table: two symbols that share a prefix, a bold
    letter outside the Basic Multilingual Plane (two code units). *)
Definition sample : UnicodeMaths :=
  new_UnicodeMaths
    [ (js "\alpha", [0x03B1%N]); (js "\aleph", [0x2135%N]);
      (js "\beta", [0x03B2%N]); (js "\mbfx", [0xD835%N; 0xDC31%N]) ].

(** A primary table with an entry whose expansion is the empty string. *)
Definition blank : UnicodeMaths :=
  new_UnicodeMaths [ (js "\mbfx", []) ].

(** ** The command [commit]

    [commit] reads the active editor of the window, asks the edit builder
    of [editor.edit] for a deletion and an insertion at every selection
    that has a token to replace, and then passes the key on with
    [commands.executeCommand].  The callback of [editor.edit] runs before
    [edit] returns, so the flag [c] is set when [commit] tests it.  What
    [commit] does is the list of builder calls and the list of commands
    it executes. *)

Definition SPACE_KEY : jsstring := js "space".

(** A selection is a range whose [start] is its smaller end;
    [editor.selection] is the first of [editor.selections]. *)
Record TextEditor : Type := mkTextEditor {
  document : TextDocument;
  selections : list Range
}.

Definition selection (editor : TextEditor) : option Range :=
  List.hd_error (selections editor).

(** A call of the edit builder. *)
Inductive edit : Type :=
| Delete (target : Range)
| Insert (location : Position) (value : jsstring).

(** A call [commands.executeCommand(name, args)]; [args] lists the
    properties of the argument object, and is empty without one. *)
Inductive command : Type :=
| executeCommand (name : jsstring) (args : list (jsstring * jsstring)).

(** The builder calls made so far, and the flag [c]. *)
Record progress : Type := mkProgress {
  edits : list edit;
  c : bool
}.

Definition doKey (key : jsstring) : list command :=
  if eqb key SPACE_KEY
  then [executeCommand (js "type") [(js "source", js "keyboard"); (js "text", js " ")]]
  else [executeCommand key []].

Section Commit.

Variable this : UnicodeMaths.

(** The body of the callback for one selection [v]. *)
Definition commitSelection (editor : TextEditor) (st : progress) (v : Range)
  : completion progress :=
  let position := start v in
  tw <- evalPosition (document editor) position ;;
  match tw with
  | None => Normal st
  | Some (target, word) =>
      if negb (truthy word) then Normal st
      else
        changed <- doWord this word ;;
        match changed with
        | None => Normal st
        | Some text =>
            if truthy text
            then Normal (mkProgress
                           (edits st ++ [Delete target; Insert (start target) text])
                           true)
            else Normal st
        end
  end.

(** [selections.map(...)]: the selections in order. *)
Fixpoint commitSelections (editor : TextEditor) (st : progress) (vs : list Range)
  : completion progress :=
  match vs with
  | [] => Normal st
  | v :: rest =>
      st' <- commitSelection editor st v ;;
      commitSelections editor st' rest
  end.

(** [commit]: the builder calls and the commands executed;
    [activeTextEditor] is [window.activeTextEditor], [None] when there is
    no editor. *)
Definition commit (activeTextEditor : option TextEditor) (key : jsstring)
  : completion (list edit * list command) :=
  if negb (truthy key) then Normal ([], [])
  else
    match activeTextEditor with
    | None => Normal ([], [])
    | Some editor =>
        match selection editor with
        | None => Normal ([], [])
        | Some _ =>
            st <- commitSelections editor (mkProgress [] false) (selections editor) ;;
            if negb (c st) || eqb key SPACE_KEY
            then Normal (edits st, doKey key)
            else Normal (edits st, [])
        end
    end.

End Commit.

(** The replacement [commit] asks for at one cursor: the span to delete
    and the text to insert at its start, or nothing. *)
Definition replacementAt (this : UnicodeMaths) (d : TextDocument) (position : Position)
  : option (Range * jsstring) :=
  match evalPosition d position with
  | Normal (Some (target, word)) =>
      match doWord this word with
      | Normal (Some (u :: text)) => Some (target, u :: text)
      | _ => None
      end
  | _ => None
  end.

(** Every value of the table has no entry of its own. *)
Definition values_unmapped (o : object) : bool :=
  forallb (fun kv => match get o (snd kv) with None => true | Some _ => false end) o.

(** The builder calls [commit] makes for one selection: the deletion of
    the located span and the insertion of the expansion at its start. *)
Definition replacementEdits (this : UnicodeMaths) (d : TextDocument) (v : Range)
  : list edit :=
  match replacementAt this d (start v) with
  | Some (target, text) => [Delete target; Insert (start target) text]
  | None => []
  end.

(** A primary table whose keys begin with [\:]. *)
Definition punctuation : UnicodeMaths :=
  new_UnicodeMaths [ (js "\:a:b", js "!"); (js "\:", []) ].

(** * Properties *)

(** ** Strings *)

Example js_backslash : js "\" = [backslash].
Proof. reflexivity. Qed.

Example js_bold_prefix : js "\b:" = [backslash; 98%N; colon].
Proof. reflexivity. Qed.

Example slice_negative : slice (js "abc") (-1) = js "c".
Proof. reflexivity. Qed.

Example lastIndexOf_found : lastIndexOf (js "x = \alpha") (js "\") = 4.
Proof. reflexivity. Qed.

Example lastIndexOf_missing : lastIndexOf (js "x = y") (js "\") = -1.
Proof. reflexivity. Qed.

Example split_two_colons :
  split_at colon (js "\a:b:c") = [js "\a"; js "b"; js "c"].
Proof. reflexivity. Qed.

Example split_no_colon : split_at colon (js "") = [js ""].
Proof. reflexivity. Qed.

Example trim_spaces : trim (js "  \a b  ") = js "\a b".
Proof. reflexivity. Qed.

Lemma eqb_eq (s t : jsstring) : eqb s t = true <-> s = t.
Proof.
  revert t; induction s as [|c s IH]; intros [|d t]; simpl; split;
    try congruence; try reflexivity.
  - intros H. apply andb_true_iff in H as [Hc Hs].
    apply N.eqb_eq in Hc. apply IH in Hs. congruence.
  - intros H. injection H as -> ->.
    rewrite N.eqb_refl. simpl. now apply IH.
Qed.

Lemma eqb_refl (s : jsstring) : eqb s s = true.
Proof. now apply eqb_eq. Qed.

Lemma eqb_neq (s t : jsstring) : eqb s t = false <-> s <> t.
Proof.
  rewrite <- eqb_eq. destruct (eqb s t); split; congruence.
Qed.

Lemma eqb_changed (result original : jsstring) :
  (if eqb result original then None else Some result)
  = changed_or_absent result original.
Proof.
  unfold changed_or_absent.
  destruct (list_eq_dec N.eq_dec result original) as [E|E].
  - apply eqb_eq in E. now rewrite E.
  - apply eqb_neq in E. now rewrite E.
Qed.

Lemma length_cons (c : code_unit) (s : jsstring) :
  length (c :: s) = 1 + length s.
Proof. unfold length. simpl List.length. lia. Qed.

Lemma length_nonneg (s : jsstring) : 0 <= length s.
Proof. unfold length. lia. Qed.

Lemma length_app (s t : jsstring) : length (s ++ t) = length s + length t.
Proof. unfold length. rewrite List.length_app. lia. Qed.

Lemma charAt_1 (a b : code_unit) (s : jsstring) : charAt (a :: b :: s) 1 = [b].
Proof.
  unfold charAt. rewrite !length_cons.
  pose proof (length_nonneg s).
  replace (1 <? 0) with false by reflexivity.
  destruct (1 + (1 + length s) <=? 1) eqn:E; [apply Z.leb_le in E; lia|].
  reflexivity.
Qed.

Lemma slice_skipn (s : jsstring) (k : nat) :
  (k <= List.length s)%nat -> slice s (Z.of_nat k) = skipn k s.
Proof.
  intros Hk. unfold slice, length.
  destruct (Z.of_nat k <? 0) eqn:E; [apply Z.ltb_lt in E; lia|].
  rewrite Z.min_l by lia. now rewrite Nat2Z.id.
Qed.

Lemma slice_app (p s : jsstring) : slice (p ++ s) (length p) = s.
Proof.
  unfold length at 1. rewrite slice_skipn.
  - rewrite skipn_app, skipn_all, Nat.sub_diag. reflexivity.
  - rewrite List.length_app. lia.
Qed.

Lemma startsWith_iff (s p : jsstring) :
  startsWith s p = true <-> exists t, s = p ++ t.
Proof.
  revert s; induction p as [|d p IH]; intros s; simpl.
  - split; [intros _; now exists s|reflexivity].
  - destruct s as [|c s].
    + split; [discriminate|intros [t Ht]; discriminate].
    + rewrite andb_true_iff, N.eqb_eq, IH. split.
      * intros [-> [t ->]]. now exists t.
      * intros [t Ht]. injection Ht as -> ->. split; [reflexivity|now exists t].
Qed.

Lemma startsWith_app (p t : jsstring) : startsWith (p ++ t) p = true.
Proof. apply startsWith_iff. now exists t. Qed.

Lemma includes_unit (s : jsstring) (c : code_unit) :
  includes s [c] = true <-> In c s.
Proof.
  induction s as [|d s IH]; simpl.
  - split; [discriminate|tauto].
  - rewrite orb_true_iff, andb_true_iff, N.eqb_eq, IH. tauto.
Qed.

Lemma join_map_units (f : jsstring -> jsstring) (s : jsstring) :
  join (List.map f (split_units s)) = flat_map (fun c => f [c]) s.
Proof.
  unfold join, split_units. rewrite List.map_map, flat_map_concat_map.
  reflexivity.
Qed.

(** ** Tables *)

Lemma get_In (o : object) (k v : jsstring) : get o k = Some v -> In (k, v) o.
Proof.
  induction o as [|[k' v'] o IH]; simpl; [discriminate|].
  destruct (eqb k' k) eqn:E.
  - apply eqb_eq in E. intros [= ->]. left. congruence.
  - intros H. right. now apply IH.
Qed.

Lemma In_keys_get (o : object) (k : jsstring) :
  In k (Object_keys o) <-> exists v, get o k = Some v.
Proof.
  induction o as [|[k' v'] o IH]; simpl.
  - split; [tauto|intros [v Hv]; discriminate].
  - destruct (eqb k' k) eqn:E.
    + apply eqb_eq in E. split; [intros _; now exists v'|intros _; now left].
    + apply eqb_neq in E. rewrite IH. split; [intros [H|H]; [contradiction|exact H]|tauto].
Qed.

Lemma subs_single_unit : single_unit_values subs = true.
Proof. reflexivity. Qed.

Lemma sups_single_unit : single_unit_values sups = true.
Proof. reflexivity. Qed.

Lemma single_unit_image (mapper : object) (c : code_unit) :
  single_unit_values mapper = true ->
  exists d, mapped_char mapper [] c = [d]
            /\ or_string (get mapper [c]) [c] = [d].
Proof.
  intros Hm. unfold mapped_char. simpl app.
  destruct (get mapper [c]) as [v|] eqn:E; [|now exists c].
  apply get_In in E. unfold single_unit_values in Hm.
  rewrite forallb_forall in Hm. specialize (Hm _ E). simpl in Hm.
  destruct v as [|d [|? ?]]; try discriminate. now exists d.
Qed.

Lemma flat_map_single (f : code_unit -> jsstring) (s : jsstring) :
  (forall c, exists d, f c = [d]) ->
  List.length (flat_map f s) = List.length s
  /\ forall i c, nth_error s i = Some c ->
       exists d, nth_error (flat_map f s) i = Some d /\ f c = [d].
Proof.
  intros Hf. induction s as [|x s [IHlen IHnth]]; simpl.
  - split; [reflexivity|]. intros [|i] c; discriminate.
  - destruct (Hf x) as [d Hd]. rewrite Hd. simpl. split; [now rewrite IHlen|].
    intros [|i] c; simpl.
    + intros [= <-]. now exists d.
    + apply IHnth.
Qed.

Lemma changed_or_absent_None (result original : jsstring) :
  changed_or_absent result original = None <-> result = original.
Proof.
  unfold changed_or_absent.
  destruct (list_eq_dec N.eq_dec result original); split; congruence.
Qed.

(** ** The expander *)

Lemma mapToSubSup_spec (prefix word s : jsstring) (mapper : object) :
  single_unit_values mapper = true ->
  word = prefix ++ s -> List.length prefix = 2%nat ->
  mapToSubSup word mapper
  = changed_or_absent (flat_map (mapped_char mapper []) s) s.
Proof.
  intros Hm -> Hp. unfold mapToSubSup.
  replace 2 with (length prefix) by (unfold length; now rewrite Hp).
  rewrite slice_app, join_map_units, eqb_changed. f_equal.
  apply flat_map_ext. intros c.
  destruct (single_unit_image mapper c Hm) as [d [-> ->]]. reflexivity.
Qed.

Lemma doWord_subscript (this : UnicodeMaths) (s : jsstring) :
  doWord this (js "\_" ++ s)
  = Normal (changed_or_absent (flat_map (mapped_char subs []) s) s).
Proof.
  unfold doWord. cbv zeta.
  change (js "\_" ++ s) with (92%N :: 95%N :: s).
  rewrite charAt_1. change (eqb [95%N] (js "_")) with true. cbv iota.
  f_equal. apply mapToSubSup_spec with (prefix := js "\_");
    [exact subs_single_unit|reflexivity|reflexivity].
Qed.

Lemma doWord_superscript (this : UnicodeMaths) (s : jsstring) :
  doWord this (js "\^" ++ s)
  = Normal (changed_or_absent (flat_map (mapped_char sups []) s) s).
Proof.
  unfold doWord. cbv zeta.
  change (js "\^" ++ s) with (92%N :: 94%N :: s).
  rewrite charAt_1. change (eqb [94%N] (js "_")) with false.
  change (eqb [94%N] (js "^")) with true. cbv iota.
  f_equal. apply mapToSubSup_spec with (prefix := js "\^");
    [exact sups_single_unit|reflexivity|reflexivity].
Qed.

Lemma mapped_string_spec (mapper : object) (s : jsstring) :
  single_unit_values mapper = true ->
  let m := flat_map (mapped_char mapper []) s in
  List.length m = List.length s
  /\ (forall i c, nth_error s i = Some c ->
         exists d, nth_error m i = Some d /\ mapped_char mapper [] c = [d]).
Proof.
  intros Hm. apply flat_map_single. intros c.
  destruct (single_unit_image mapper c Hm) as [d [Hd _]]. now exists d.
Qed.

(** C1: for every string [s], expanding [\_] + [s] maps each character
    through the Subscript table, keeping a character without an entry:
    the mapped string has the length of [s], its character at each index
    is the image of the character of [s] there, and the result is absent
    exactly when the mapped string equals [s]; the same holds of
    [\^] + [s] and the Superscript table. *)
Theorem expand_subscript_superscript (this : UnicodeMaths) (s : jsstring) :
  (let m := flat_map (mapped_char subs []) s in
   List.length m = List.length s
   /\ (forall i c, nth_error s i = Some c ->
         exists d, nth_error m i = Some d /\ mapped_char subs [] c = [d])
   /\ doWord this (js "\_" ++ s) = Normal (changed_or_absent m s)
   /\ (doWord this (js "\_" ++ s) = Normal None <-> m = s))
  /\
  (let m := flat_map (mapped_char sups []) s in
   List.length m = List.length s
   /\ (forall i c, nth_error s i = Some c ->
         exists d, nth_error m i = Some d /\ mapped_char sups [] c = [d])
   /\ doWord this (js "\^" ++ s) = Normal (changed_or_absent m s)
   /\ (doWord this (js "\^" ++ s) = Normal None <-> m = s)).
Proof.
  split; cbv zeta.
  - destruct (mapped_string_spec subs s subs_single_unit) as [Hlen Hnth].
    rewrite doWord_subscript. repeat split; try assumption.
    + intros [= H]. now apply changed_or_absent_None.
    + intros H. f_equal. now apply changed_or_absent_None.
  - destruct (mapped_string_spec sups s sups_single_unit) as [Hlen Hnth].
    rewrite doWord_superscript. repeat split; try assumption.
    + intros [= H]. now apply changed_or_absent_None.
    + intros H. f_equal. now apply changed_or_absent_None.
Qed.

(** C9: [\_2] expands to the subscript two, and [\_Q] to nothing, [Q]
    having no entry in the Subscript table. *)
Theorem expand_subscript_scenarios (this : UnicodeMaths) :
  doWord this (js "\_2") = Normal (Some [0x2082%N])
  /\ get subs (js "2") = Some [0x2082%N]
  /\ doWord this (js "\_Q") = Normal None
  /\ get subs (js "Q") = None.
Proof. repeat split; reflexivity. Qed.

(** C10: every token that starts with [\i:] expands to the constant
    string [foo], whatever follows the colon and whatever the primary
    table holds. *)
Theorem expand_italic_constant (this : UnicodeMaths) (s : jsstring) :
  doWord this (js "\i:" ++ s) = Normal (Some (js "foo")).
Proof.
  unfold doWord. cbv zeta.
  change (js "\i:" ++ s) with (92%N :: 105%N :: 58%N :: s).
  rewrite charAt_1. reflexivity.
Qed.

Lemma or_string_nonempty (table : object) (prefix : jsstring) (c : code_unit) :
  or_string (get table (prefix ++ [c])) [c] = mapped_char_nonempty table prefix c.
Proof.
  unfold or_string, mapped_char_nonempty.
  destruct (get table (prefix ++ [c])) as [[|d v]|]; reflexivity.
Qed.

(** On a table none of whose entries is the empty string, the two readings
    of "the entry when there is one" agree. *)
Lemma mapped_char_nonempty_eq (table : object) (prefix : jsstring) (c : code_unit) :
  (forall k, get table k <> Some []) ->
  mapped_char_nonempty table prefix c = mapped_char table prefix c.
Proof.
  intros H. unfold mapped_char_nonempty, mapped_char.
  destruct (get table (prefix ++ [c])) as [[|d v]|] eqn:E; try reflexivity.
  now apply H in E.
Qed.

Example expand_bold_sample :
  doWord sample (js "\b:xy") = Normal (Some [0xD835%N; 0xDC31%N; 121%N]).
Proof. reflexivity. Qed.

Lemma doWord_bold (this : UnicodeMaths) (s : jsstring) :
  doWord this (js "\b:" ++ s)
  = Normal (changed_or_absent
              (flat_map (mapped_char_nonempty (codes this) (js "\mbf")) s) s).
Proof.
  assert (Hc : charAt (js "\b:" ++ s) 1 = js "b") by apply charAt_1.
  assert (Hi : startsWith (js "\b:" ++ s) (js "\i:") = false) by reflexivity.
  assert (Hb : startsWith (js "\b:" ++ s) (js "\b:") = true) by reflexivity.
  unfold doWord. cbv zeta. rewrite Hc, Hi, Hb.
  change (eqb (js "b") (js "_")) with false.
  change (eqb (js "b") (js "^")) with false.
  cbv iota. f_equal. unfold mapToBoldIt.
  change 3 with (length (js "\b:")).
  rewrite slice_app, join_map_units, eqb_changed. f_equal.
  apply flat_map_ext. intros c. apply or_string_nonempty.
Qed.

(** C3 (amended): for every string [s], expanding [\b:] + [s] replaces
    each character [c] of [s] with the primary-table entry for [\mbf] + [c]
    when that entry exists and is not the empty string, keeps [c]
    otherwise, and is absent exactly when the result equals [s]. *)
Theorem expand_bold (this : UnicodeMaths) (s : jsstring) :
  let r := flat_map (mapped_char_nonempty (codes this) (js "\mbf")) s in
  doWord this (js "\b:" ++ s) = Normal (changed_or_absent r s)
  /\ (doWord this (js "\b:" ++ s) = Normal None <-> r = s).
Proof.
  cbv zeta. rewrite doWord_bold. split; [reflexivity|]. split.
  - intros [= H]. now apply changed_or_absent_None.
  - intros H. f_equal. now apply changed_or_absent_None.
Qed.

(** C3 as stated fails where the table maps [\mbfx] to the empty string:
    the entry exists, so the claim replaces [x] by it and returns the
    empty string; the code keeps [x] and returns absent. *)
Lemma expand_bold_counterexample :
  get (codes blank) (js "\mbf" ++ js "x") = Some []
  /\ changed_or_absent
       (flat_map (mapped_char (codes blank) (js "\mbf")) (js "x")) (js "x")
     = Some []
  /\ doWord blank (js "\b:" ++ js "x") = Normal None.
Proof. repeat split; reflexivity. Qed.

(** ** Splitting at the colon *)

Lemma split_at_nonempty (sep : code_unit) (s : jsstring) : split_at sep s <> [].
Proof.
  destruct s as [|c s]; simpl; [discriminate|].
  destruct (N.eqb c sep); [discriminate|].
  destruct (split_at sep s); discriminate.
Qed.

Lemma split_at_absent (sep : code_unit) (s : jsstring) :
  ~ In sep s -> split_at sep s = [s].
Proof.
  induction s as [|c s IH]; simpl; intros H; [reflexivity|].
  destruct (N.eqb c sep) eqn:E.
  - apply N.eqb_eq in E. tauto.
  - rewrite IH by tauto. reflexivity.
Qed.

Lemma split_at_once (sep : code_unit) (m p : jsstring) :
  ~ In sep m -> ~ In sep p -> split_at sep (m ++ sep :: p) = [m; p].
Proof.
  intros Hm Hp. induction m as [|c m IH]; simpl.
  - rewrite N.eqb_refl, split_at_absent by assumption. reflexivity.
  - simpl in Hm. destruct (N.eqb c sep) eqn:E.
    + apply N.eqb_eq in E. tauto.
    + rewrite IH by tauto. reflexivity.
Qed.

Lemma split_at_length (s : jsstring) :
  List.length (split_at colon s) = S (colons s).
Proof.
  unfold colons. induction s as [|c s IH]; [reflexivity|].
  cbn [split_at filter]. rewrite (N.eqb_sym colon c).
  destruct (N.eqb c colon).
  - cbn [List.length]. now rewrite IH.
  - destruct (split_at colon s) eqn:E; [now apply split_at_nonempty in E|].
    exact IH.
Qed.

Lemma mapTo_once (this : UnicodeMaths) (modifierPrefix payload : jsstring) :
  ~ In colon modifierPrefix -> ~ In colon payload ->
  mapTo this (modifierPrefix ++ colon :: payload)
  = Normal (changed_or_absent
              (flat_map (mapped_char_nonempty (codes this) modifierPrefix) payload)
              payload).
Proof.
  intros Hm Hp. unfold mapTo. rewrite split_at_once by assumption. simpl.
  rewrite join_map_units, eqb_changed. do 2 f_equal.
  apply flat_map_ext. intros c. apply or_string_nonempty.
Qed.

Lemma mapTo_many (this : UnicodeMaths) (word : jsstring) :
  (2 <= colons word)%nat -> mapTo this word = Normal None.
Proof.
  intros H. unfold mapTo. rewrite split_at_length.
  destruct (Nat.eqb (S (colons word)) 2) eqn:E; [|reflexivity].
  apply Nat.eqb_eq in E. lia.
Qed.

Lemma doWord_generic (this : UnicodeMaths) (word : jsstring) :
  startsWith word (js "\") = true ->
  startsWith word (js "\:") = false ->
  charAt word 1 <> js "_" ->
  charAt word 1 <> js "^" ->
  startsWith word (js "\i:") = false ->
  startsWith word (js "\b:") = false ->
  In colon word ->
  doWord this word = mapTo this word.
Proof.
  intros Hs Hc Hsub Hsup Hi Hb Hin. unfold doWord. cbv zeta.
  apply eqb_neq in Hsub, Hsup. apply (includes_unit word colon) in Hin.
  change [colon] with (js ":") in Hin.
  rewrite Hsub, Hsup, Hi, Hb, Hc, Hs, Hin. reflexivity.
Qed.

(** C2 (amended): a token that starts with a backslash but not with [\:],
    whose second character is neither [_] nor [^], that starts with
    neither [\i:] nor [\b:] and that contains a colon is split at the colon
    when it has exactly one: each character [c] of the payload is replaced
    with the primary-table entry for modifierPrefix + [c] when that entry
    exists and is not the empty string, and kept otherwise; the result is
    absent when it equals the payload.  With more than one colon the
    result is absent. *)
Theorem expand_generic_modifier (this : UnicodeMaths) (word : jsstring) :
  startsWith word (js "\") = true ->
  startsWith word (js "\:") = false ->
  charAt word 1 <> js "_" ->
  charAt word 1 <> js "^" ->
  startsWith word (js "\i:") = false ->
  startsWith word (js "\b:") = false ->
  In colon word ->
  (forall modifierPrefix payload,
     word = modifierPrefix ++ colon :: payload ->
     ~ In colon modifierPrefix -> ~ In colon payload ->
     colons word = 1%nat
     /\ doWord this word
        = Normal (changed_or_absent
                    (flat_map (mapped_char_nonempty (codes this) modifierPrefix)
                              payload)
                    payload))
  /\ ((2 <= colons word)%nat -> doWord this word = Normal None).
Proof.
  intros Hs Hc Hsub Hsup Hi Hb Hin.
  rewrite (doWord_generic this word Hs Hc Hsub Hsup Hi Hb Hin). split.
  - intros m p -> Hm Hp. split; [|now apply mapTo_once].
    pose proof (split_at_length (m ++ colon :: p)) as L.
    rewrite split_at_once in L by assumption. simpl in L. lia.
  - apply mapTo_many.
Qed.

Lemma expand_generic_modifier_witness :
  doWord sample (js "\mbf:xy") = Normal (Some [0xD835%N; 0xDC31%N; 121%N])
  /\ doWord sample (js "\a:b:c") = Normal None.
Proof.
  split.
  - assert (Hsub : charAt (js "\mbf:xy") 1 <> js "_") by (vm_compute; discriminate).
    assert (Hsup : charAt (js "\mbf:xy") 1 <> js "^") by (vm_compute; discriminate).
    assert (Hin : In colon (js "\mbf:xy")) by (vm_compute; tauto).
    assert (Hm : ~ In colon (js "\mbf")) by (vm_compute; intuition discriminate).
    assert (Hp : ~ In colon (js "xy")) by (vm_compute; intuition discriminate).
    destruct (expand_generic_modifier sample (js "\mbf:xy")
                eq_refl eq_refl Hsub Hsup eq_refl eq_refl Hin) as [H _].
    destruct (H (js "\mbf") (js "xy") eq_refl Hm Hp) as [_ E]. exact E.
  - assert (Hsub : charAt (js "\a:b:c") 1 <> js "_") by (vm_compute; discriminate).
    assert (Hsup : charAt (js "\a:b:c") 1 <> js "^") by (vm_compute; discriminate).
    assert (Hin : In colon (js "\a:b:c")) by (vm_compute; tauto).
    assert (Hn : (2 <= colons (js "\a:b:c"))%nat) by (vm_compute; lia).
    destruct (expand_generic_modifier sample (js "\a:b:c")
                eq_refl eq_refl Hsub Hsup eq_refl eq_refl Hin) as [_ H].
    exact (H Hn).
Defined.

(** C2 as stated fails where the table maps [\mbfx] to the empty string:
    [\mbf:x] has one colon and the entry for [\mbf] + [x] exists, so the
    claim returns the empty string; the code keeps [x] and returns
    absent. *)
Lemma expand_generic_modifier_counterexample :
  startsWith (js "\mbf:x") (js "\") = true
  /\ startsWith (js "\mbf:x") (js "\:") = false
  /\ charAt (js "\mbf:x") 1 = js "m"
  /\ colons (js "\mbf:x") = 1%nat
  /\ js "\mbf:x" = js "\mbf" ++ colon :: js "x"
  /\ get (codes blank) (js "\mbf" ++ js "x") = Some []
  /\ changed_or_absent
       (flat_map (mapped_char (codes blank) (js "\mbf")) (js "x")) (js "x")
     = Some []
  /\ doWord blank (js "\mbf:x") = Normal None.
Proof. repeat split; reflexivity. Qed.

(** ** Empty strings and absence *)

Lemma or_string_truthy (v : option jsstring) (c : code_unit) :
  or_string v [c] <> [].
Proof. destruct v as [[|d s]|]; simpl; discriminate. Qed.

Lemma mapped_units_nil (f : jsstring -> jsstring) (s : jsstring) :
  (forall c, f [c] <> []) ->
  join (List.map f (split_units s)) = [] -> s = [].
Proof.
  intros Hf. rewrite join_map_units. destruct s as [|c s]; [reflexivity|].
  simpl. intros H. apply app_eq_nil in H as [H _]. now apply Hf in H.
Qed.

Lemma changed_nonempty (f : jsstring -> jsstring) (target : jsstring) :
  (forall c, f [c] <> []) ->
  let newStr := join (List.map f (split_units target)) in
  (if eqb newStr target then None else Some newStr) <> Some [].
Proof.
  intros Hf newStr. destruct (eqb newStr target) eqn:E; [discriminate|].
  intros [= H]. apply eqb_neq in E. apply E. rewrite H.
  symmetry. now apply (mapped_units_nil f).
Qed.

Lemma or_null_nonempty (v : option jsstring) : or_null v <> Some [].
Proof. destruct v as [[|d s]|]; simpl; discriminate. Qed.

Lemma mapTo_nonempty (this : UnicodeMaths) (word : jsstring) :
  mapTo this word <> Normal (Some []).
Proof.
  unfold mapTo. destruct (Nat.eqb _ 2); [|discriminate].
  destruct (nth_error _ 1) as [newStr|]; [|discriminate].
  intros [= H]. revert H. apply changed_nonempty.
  intros c. apply or_string_truthy.
Qed.

Lemma doWord_nonempty (this : UnicodeMaths) (word : jsstring) :
  doWord this word <> Normal (Some []).
Proof.
  unfold doWord. cbv zeta.
  destruct (eqb (charAt word 1) (js "_")).
  { intros [= H]. revert H. apply changed_nonempty. intros c. apply or_string_truthy. }
  destruct (eqb (charAt word 1) (js "^")).
  { intros [= H]. revert H. apply changed_nonempty. intros c. apply or_string_truthy. }
  destruct (startsWith word (js "\i:")); [discriminate|].
  destruct (startsWith word (js "\b:")).
  { intros [= H]. revert H. apply changed_nonempty. intros c. apply or_string_truthy. }
  destruct (_ && _ && _); [apply mapTo_nonempty|].
  intros [= H]. now apply or_null_nonempty in H.
Qed.

(** C8 (amended): the empty string is never the result of expand.  A
    token that reaches the direct lookup (no colon, second character
    neither [_] nor [^]) and whose primary-table entry is the empty string
    expands to absent, as a token without an entry does; an entry that is
    not empty is returned as it is. *)
Theorem expand_empty_entry_absent (this : UnicodeMaths) (word : jsstring) :
  doWord this word <> Normal (Some [])
  /\ (charAt word 1 <> js "_" -> charAt word 1 <> js "^" -> ~ In colon word ->
      (get (codes this) word = Some [] -> doWord this word = Normal None)
      /\ (get (codes this) word = None -> doWord this word = Normal None)
      /\ (forall d e, get (codes this) word = Some (d :: e) ->
            doWord this word = Normal (Some (d :: e)))).
Proof.
  split; [apply doWord_nonempty|].
  intros Hsub Hsup Hcolon.
  assert (Hinc : includes word (js ":") = false).
  { destruct (includes word (js ":")) eqn:E; [|reflexivity].
    apply (includes_unit word colon) in E. contradiction. }
  assert (Hi : startsWith word (js "\i:") = false).
  { destruct (startsWith word (js "\i:")) eqn:E; [|reflexivity].
    apply startsWith_iff in E as [t ->]. exfalso. apply Hcolon.
    simpl. tauto. }
  assert (Hb : startsWith word (js "\b:") = false).
  { destruct (startsWith word (js "\b:")) eqn:E; [|reflexivity].
    apply startsWith_iff in E as [t ->]. exfalso. apply Hcolon.
    simpl. tauto. }
  assert (Hdo : doWord this word = Normal (or_null (get (codes this) word))).
  { unfold doWord. cbv zeta. apply eqb_neq in Hsub, Hsup.
    rewrite Hsub, Hsup, Hi, Hb, Hinc, andb_false_r. reflexivity. }
  rewrite Hdo. repeat split.
  - intros ->. reflexivity.
  - intros ->. reflexivity.
  - intros d e ->. reflexivity.
Qed.

Lemma expand_empty_entry_absent_witness :
  get (codes blank) (js "\mbfx") = Some []
  /\ doWord blank (js "\mbfx") = Normal None.
Proof.
  split; [reflexivity|].
  assert (Hsub : charAt (js "\mbfx") 1 <> js "_") by (vm_compute; discriminate).
  assert (Hsup : charAt (js "\mbfx") 1 <> js "^") by (vm_compute; discriminate).
  assert (Hc : ~ In colon (js "\mbfx")) by (vm_compute; intuition discriminate).
  destruct (expand_empty_entry_absent blank (js "\mbfx")) as [_ H].
  destruct (H Hsub Hsup Hc) as [E _]. exact (E eq_refl).
Defined.

(** C8 as stated fails where the table maps [\mbfx] to the empty string:
    the direct lookup of the token [\mbfx] finds the empty string, and
    expand returns absent, not that string. *)
Lemma expand_empty_entry_counterexample :
  get (codes blank) (js "\mbfx") = Some []
  /\ doWord blank (js "\mbfx") = Normal None
  /\ doWord blank (js "\mbfx") <> Normal (Some []).
Proof. split; [reflexivity|split; [reflexivity|discriminate]]. Qed.

(** ** No exception escapes *)

Lemma mapTo_total (this : UnicodeMaths) (word : jsstring) :
  exists r, mapTo this word = Normal r.
Proof.
  unfold mapTo. destruct (split_at colon word) as [|a [|b [|c l]]]; simpl; eauto.
Qed.

Lemma doWord_total (this : UnicodeMaths) (word : jsstring) :
  exists r, doWord this word = Normal r.
Proof.
  unfold doWord. cbv zeta.
  destruct (eqb (charAt word 1) (js "_")); [eauto|].
  destruct (eqb (charAt word 1) (js "^")); [eauto|].
  destruct (startsWith word (js "\i:")); [eauto|].
  destruct (startsWith word (js "\b:")); [eauto|].
  destruct (_ && _ && _); [apply mapTo_total|eauto].
Qed.

Lemma evalPosition_total (document : TextDocument) (position : Position) :
  exists r, evalPosition document position = Normal r.
Proof.
  unfold evalPosition. destruct (character position =? 0); [eauto|].
  destruct (getWordRangeAtPosition document position) as [[r w]|e]; simpl; eauto.
Qed.

(** The locator's helper does throw: without a backslash before the cursor
    the start position it builds has column [-1]. *)
Example getWordRangeAtPosition_throws :
  getWordRangeAtPosition (document_of [js "x = y"]) (mkPosition 0 5)
  = Throw (IllegalArgument "character must be non-negative").
Proof. reflexivity. Qed.

(** C7: the core never throws.  For every string that begins with a
    backslash, expand completes normally, with a string or with absent;
    every locate query completes normally, with a span and token or with
    absent. *)
Theorem core_never_throws :
  (forall (this : UnicodeMaths) (word : jsstring),
     startsWith word (js "\") = true ->
     exists r : option jsstring, doWord this word = Normal r)
  /\ (forall (document : TextDocument) (position : Position),
        exists r : option (Range * jsstring),
          evalPosition document position = Normal r).
Proof.
  split.
  - intros this word _. apply doWord_total.
  - apply evalPosition_total.
Qed.

Lemma core_never_throws_witness :
  startsWith (js "\a:b:c") (js "\") = true
  /\ (exists r, doWord sample (js "\a:b:c") = Normal r)
  /\ (exists r, evalPosition (document_of [js "x = y"]) (mkPosition 0 5) = Normal r).
Proof.
  split; [reflexivity|]. split.
  - exact (proj1 core_never_throws sample (js "\a:b:c") eq_refl).
  - exact (proj2 core_never_throws (document_of [js "x = y"]) (mkPosition 0 5)).
Defined.

(** ** The completion matcher *)

Lemma evalPosition_word (document : TextDocument) (position : Position)
      (target : Range) (word : jsstring) :
  evalPosition document position = Normal (Some (target, word)) ->
  truthy word = true /\ startsWith word (js "\") = true.
Proof.
  unfold evalPosition. destruct (character position =? 0); [discriminate|].
  destruct (getWordRangeAtPosition document position) as [[r w]|e];
    cbn [bind try_catch]; [|discriminate].
  destruct (truthy w) eqn:Ht; [|discriminate].
  destruct (startsWith w (js "\")) eqn:Hs; [|discriminate].
  cbn [negb orb]. intros [= <- <-]. now split.
Qed.

Lemma completionItemsFor_labels (this : UnicodeMaths) (target : Range)
      (word : jsstring) :
  List.map label (completionItemsFor this target word)
  = List.filter (fun k => startsWith k word) (keys this).
Proof.
  unfold completionItemsFor. rewrite List.map_map. simpl. apply List.map_id.
Qed.

Lemma completionItemsFor_In (this : UnicodeMaths) (target : Range)
      (word : jsstring) (item : CompletionItem) :
  In item (completionItemsFor this target word) <->
  In (label item) (keys this)
  /\ startsWith (label item) word = true
  /\ detail item = get (codes this) (label item)
  /\ insertText item = get (codes this) (label item)
  /\ range item = target.
Proof.
  unfold completionItemsFor. rewrite in_map_iff. split.
  - intros [k [<- Hk]]. apply filter_In in Hk as [Hk Hs]. simpl. tauto.
  - intros (Hk & Hs & Hd & Hi & Hr). exists (label item). split.
    + destruct item as [l d i r]. simpl in *. congruence.
    + apply filter_In. tauto.
Qed.

(** C6: for every partial token [p], the completion matcher returns
    exactly the keys of the primary table that have [p] as a literal
    prefix, in table order, each paired with the expansion the table
    holds for it, and the empty sequence when no key matches; this is
    what [provideCompletionItems] answers once the locator has found
    [p]. *)
Theorem suggest_prefix_matches (table : object) (target : Range) (p : jsstring) :
  let this := new_UnicodeMaths table in
  let items := completionItemsFor this target p in
  List.map label items
  = List.filter (fun k => startsWith k p) (Object_keys table)
  /\ (forall k, In k (List.map label items) <->
        In k (Object_keys table) /\ exists rest, k = p ++ rest)
  /\ (forall item, In item items ->
        exists e, get table (label item) = Some e
                  /\ detail item = Some e /\ insertText item = Some e)
  /\ (forall k e, get table k = Some e -> (exists rest, k = p ++ rest) ->
        In (mkCompletionItem k (Some e) (Some e) target) items)
  /\ ((forall k, In k (Object_keys table) -> ~ exists rest, k = p ++ rest) ->
      items = [])
  /\ (forall document position,
        evalPosition document position = Normal (Some (target, p)) ->
        provideCompletionItems this document position = Normal items).
Proof.
  cbv zeta. split; [apply completionItemsFor_labels|].
  split; [|split; [|split; [|split]]].
  - intros k. rewrite completionItemsFor_labels, filter_In, startsWith_iff.
    reflexivity.
  - intros item Hitem. apply completionItemsFor_In in Hitem.
    destruct Hitem as (Hk & _ & Hd & Hi & _). simpl in Hk, Hd, Hi.
    apply In_keys_get in Hk as [e He]. exists e. rewrite Hd, Hi. tauto.
  - intros k e He Hp. apply completionItemsFor_In. simpl.
    repeat split; try congruence.
    + apply In_keys_get. now exists e.
    + now apply startsWith_iff.
  - intros Hnone.
    assert (E : List.map label (completionItemsFor (new_UnicodeMaths table) target p) = []).
    { rewrite completionItemsFor_labels. simpl.
      induction (Object_keys table) as [|k l IH]; [reflexivity|]. simpl.
      destruct (startsWith k p) eqn:Hs.
      - apply startsWith_iff in Hs. exfalso. apply (Hnone k); simpl; tauto.
      - apply IH. intros k' Hk'. apply Hnone. simpl. tauto. }
    now apply map_eq_nil in E.
  - intros document position Hev. unfold provideCompletionItems.
    rewrite Hev. simpl. apply evalPosition_word in Hev as [Ht _].
    now rewrite Ht.
Qed.

Lemma suggest_prefix_matches_witness :
  provideCompletionItems sample (document_of [js "x = \al"]) (mkPosition 0 7)
  = Normal
      [ mkCompletionItem (js "\alpha") (Some [0x03B1%N]) (Some [0x03B1%N])
          (mkRange (mkPosition 0 4) (mkPosition 0 7));
        mkCompletionItem (js "\aleph") (Some [0x2135%N]) (Some [0x2135%N])
          (mkRange (mkPosition 0 4) (mkPosition 0 7)) ].
Proof.
  destruct (suggest_prefix_matches (codes sample)
              (mkRange (mkPosition 0 4) (mkPosition 0 7)) (js "\al"))
    as (_ & _ & _ & _ & _ & H).
  exact (H (document_of [js "x = \al"]) (mkPosition 0 7) eq_refl).
Defined.

(** ** The locator *)

Lemma lastIndexOf_from_absent (c : code_unit) (s : jsstring) (i : Z) :
  ~ In c s -> lastIndexOf_from s [c] i = -1.
Proof.
  revert i. induction s as [|d s IH]; intros i H; [reflexivity|].
  cbn [lastIndexOf_from]. rewrite IH by (simpl in H; tauto).
  replace (0 <=? -1) with false by reflexivity.
  cbn [startsWith]. destruct (N.eqb d c) eqn:E; [|reflexivity].
  apply N.eqb_eq in E. simpl in H. tauto.
Qed.

Lemma lastIndexOf_from_found (c : code_unit) (s : jsstring) (i : Z) :
  0 <= i -> In c s ->
  exists pre post,
    s = pre ++ c :: post /\ ~ In c post
    /\ lastIndexOf_from s [c] i = i + length pre.
Proof.
  revert i. induction s as [|d s IH]; intros i Hi H; [contradiction|].
  cbn [lastIndexOf_from].
  destruct (in_dec N.eq_dec c s) as [Hs|Hs].
  - destruct (IH (i + 1) ltac:(lia) Hs) as (pre & post & -> & Hpost & ->).
    exists (d :: pre), post. rewrite length_cons.
    pose proof (length_nonneg pre).
    destruct (0 <=? i + 1 + length pre) eqn:E; [|apply Z.leb_gt in E; lia].
    repeat split; [assumption|lia].
  - rewrite lastIndexOf_from_absent by assumption.
    replace (0 <=? -1) with false by reflexivity.
    destruct H as [->|H]; [|contradiction].
    exists [], s. cbn [startsWith]. rewrite N.eqb_refl.
    repeat split; [assumption|]. unfold length. simpl. lia.
Qed.

Lemma trimStart_length (s : jsstring) :
  (List.length (trimStart s) <= List.length s)%nat.
Proof.
  induction s as [|c s IH]; simpl; [lia|].
  destruct (isWhiteSpace c); simpl; lia.
Qed.

Lemma trimStart_snoc (s : jsstring) (c : code_unit) :
  isWhiteSpace c = false -> trimStart (s ++ [c]) = trimStart s ++ [c].
Proof.
  intros Hc. induction s as [|d s IH]; simpl.
  - now rewrite Hc.
  - destruct (isWhiteSpace d); [exact IH|reflexivity].
Qed.

Lemma trimStart_app_fixed (s t : jsstring) :
  trimStart (s ++ t) = s ++ t -> trimStart s = s.
Proof.
  destruct s as [|c s]; [reflexivity|]. simpl.
  destruct (isWhiteSpace c); [|reflexivity].
  intros H. pose proof (trimStart_length (s ++ t)) as L.
  rewrite H in L. simpl in L. lia.
Qed.

Lemma trimEnd_cons (c : code_unit) (s : jsstring) :
  isWhiteSpace c = false -> trimEnd (c :: s) = c :: trimEnd s.
Proof.
  intros Hc. unfold trimEnd. simpl rev.
  rewrite trimStart_snoc by assumption.
  rewrite rev_app_distr. reflexivity.
Qed.

Lemma trimEnd_length (s : jsstring) : length (trimEnd s) <= length s.
Proof.
  unfold trimEnd, length. rewrite length_rev.
  pose proof (trimStart_length (rev s)) as L. rewrite length_rev in L. lia.
Qed.

Lemma trimEnd_suffix_fixed (s t : jsstring) :
  trimEnd (s ++ t) = s ++ t -> trimEnd t = t.
Proof.
  unfold trimEnd. intros H.
  apply (f_equal (@rev code_unit)) in H. rewrite rev_involutive in H.
  rewrite rev_app_distr in H. apply trimStart_app_fixed in H.
  rewrite H. apply rev_involutive.
Qed.

Lemma trim_backslash (post : jsstring) :
  trim (backslash :: post) = backslash :: trimEnd post.
Proof.
  unfold trim. cbn [trimStart].
  change (isWhiteSpace backslash) with false. cbv iota.
  now apply trimEnd_cons.
Qed.

Lemma substring_length (s : jsstring) (a b : Z) :
  0 <= a <= b -> length (substring s a b) <= b - a.
Proof.
  intros H. unfold substring, length.
  match goal with
  | |- Z.of_nat (List.length (firstn ?n ?l)) <= _ =>
      pose proof (firstn_le_length n l)
  end.
  lia.
Qed.

Lemma validatePosition_pair (d : TextDocument) (l c : Z) :
  let a := validatePosition d (mkPosition l 0) in
  let b := validatePosition d (mkPosition l c) in
  VSCode.line a = VSCode.line b
  /\ 0 <= character a <= character b
  /\ character b - character a <= Z.max 0 c.
Proof.
  unfold validatePosition. cbn [VSCode.line character].
  destruct (lineCount d =? 0); [cbn; lia|].
  destruct (l <? 0); [cbn; lia|].
  destruct (lineCount d <=? l).
  { cbn. pose proof (length_nonneg (lineAt d (lineCount d - 1))). lia. }
  pose proof (length_nonneg (lineAt d l)) as Hm.
  replace (0 <? 0) with false by reflexivity.
  destruct (length (lineAt d l) <? 0) eqn:E0; [apply Z.ltb_lt in E0; lia|].
  destruct (c <? 0) eqn:E1; [cbn; lia|].
  destruct (length (lineAt d l) <? c) eqn:E2; cbn.
  - apply Z.ltb_lt in E2. lia.
  - apply Z.ltb_ge in E1, E2. lia.
Qed.

(** The text before the cursor is no longer than the cursor column. *)
Lemma textBeforeCursor_length (d : TextDocument) (position : Position) :
  length (textBeforeCursor d position) <= Z.max 0 (character position).
Proof.
  destruct position as [l c]. unfold textBeforeCursor, getText, validateRange.
  cbn [VSCode.line character].
  destruct (validatePosition_pair d l c) as (Hl & H0 & Hd).
  assert (E : new_Range (validatePosition d (start (new_Range (mkPosition l 0) (mkPosition l c))))
                        (validatePosition d (end_ (new_Range (mkPosition l 0) (mkPosition l c))))
              = mkRange (validatePosition d (mkPosition l 0))
                        (validatePosition d (mkPosition l c))).
  { assert (S : forall a b : Position,
               VSCode.line a = VSCode.line b -> character a <= character b ->
               new_Range a b = mkRange a b /\ new_Range b a = mkRange a b).
    { intros [la ca] [lb cb]. cbn [VSCode.line character]. intros <- Hab.
      unfold new_Range, isBefore. cbn [VSCode.line character].
      rewrite Z.ltb_irrefl, Z.eqb_refl. cbn [orb andb]. split.
      - destruct (ca <? cb) eqn:E; [reflexivity|].
        apply Z.ltb_ge in E. assert (ca = cb) by lia. now subst.
      - destruct (cb <? ca) eqn:E; [|reflexivity].
        apply Z.ltb_lt in E. lia. }
    destruct (S _ _ Hl (proj2 H0)) as [S1 S2].
    unfold new_Range at 2 3.
    destruct (isBefore (mkPosition l 0) (mkPosition l c)); cbn [start end_];
      assumption. }
  rewrite E. cbn [start end_].
  destruct (isEmpty _); [unfold length; simpl; lia|].
  rewrite Hl, Z.eqb_refl.
  pose proof (substring_length
                (lineAt d (VSCode.line (validatePosition d (mkPosition l c))))
                (character (validatePosition d (mkPosition l 0)))
                (character (validatePosition d (mkPosition l c))) H0).
  lia.
Qed.

Lemma evalPosition_line_start (d : TextDocument) (position : Position) :
  character position = 0 -> evalPosition d position = Normal None.
Proof. intros H. unfold evalPosition. now rewrite H. Qed.

Lemma evalPosition_no_backslash (d : TextDocument) (position : Position) :
  ~ In backslash (textBeforeCursor d position) ->
  evalPosition d position = Normal None.
Proof.
  intros H. unfold evalPosition.
  destruct (character position =? 0); [reflexivity|].
  unfold getWordRangeAtPosition, new_Position at 1.
  destruct (VSCode.line position <? 0) eqn:El; [reflexivity|].
  replace (0 <? 0) with false by reflexivity. cbn [bind].
  change (getText d (new_Range (mkPosition (VSCode.line position) 0) position))
    with (textBeforeCursor d position).
  unfold lastIndexOf. change (js "\") with [backslash].
  rewrite lastIndexOf_from_absent by assumption.
  unfold new_Position. rewrite El. reflexivity.
Qed.

Lemma evalPosition_found (d : TextDocument) (position : Position)
      (pre post : jsstring) :
  character position <> 0 -> 0 <= VSCode.line position ->
  textBeforeCursor d position = pre ++ backslash :: post ->
  ~ In backslash post ->
  evalPosition d position
  = Normal (Some (mkRange
                    (mkPosition (VSCode.line position) (length pre))
                    (mkPosition (VSCode.line position)
                                (length pre + length (trim (backslash :: post)))),
                  trim (backslash :: post))).
Proof.
  intros Hc Hl Htext Hpost. unfold evalPosition.
  destruct (character position =? 0) eqn:Ec; [apply Z.eqb_eq in Ec; contradiction|].
  unfold getWordRangeAtPosition, new_Position at 1.
  destruct (VSCode.line position <? 0) eqn:El; [apply Z.ltb_lt in El; lia|].
  replace (0 <? 0) with false by reflexivity. cbn [bind].
  change (getText d (new_Range (mkPosition (VSCode.line position) 0) position))
    with (textBeforeCursor d position).
  assert (Hslash : lastIndexOf (textBeforeCursor d position) (js "\") = length pre).
  { unfold lastIndexOf. change (js "\") with [backslash].
    destruct (lastIndexOf_from_found backslash (textBeforeCursor d position) 0)
      as (pre' & post' & E & Hpost' & ->); [lia| |].
    - rewrite Htext. apply in_or_app. right. now left.
    - rewrite Htext in E.
      assert (pre = pre').
      { clear -E Hpost Hpost'. revert pre' E.
        induction pre as [|x pre IH]; intros [|y pre'] E; simpl in E.
        - reflexivity.
        - injection E as <- E. exfalso. apply Hpost. rewrite E.
          apply in_or_app. right. now left.
        - injection E as -> E. exfalso. apply Hpost'. rewrite <- E.
          apply in_or_app. right. now left.
        - injection E as <- E. f_equal. now apply IH. }
      subst pre'. lia. }
  rewrite Hslash, Htext, slice_app, trim_backslash.
  pose proof (length_nonneg pre) as Hpre.
  pose proof (length_nonneg (trimEnd post)) as Htrim.
  unfold new_Position. rewrite El.
  destruct (length pre <? 0) eqn:E1; [apply Z.ltb_lt in E1; lia|].
  cbn [bind]. unfold translate. rewrite length_cons.
  destruct (1 + length (trimEnd post) =? 0) eqn:E2; [apply Z.eqb_eq in E2; lia|].
  unfold new_Position. cbn [VSCode.line character]. rewrite El.
  destruct (length pre + (1 + length (trimEnd post)) <? 0) eqn:E3;
    [apply Z.ltb_lt in E3; lia|].
  cbn [bind try_catch truthy negb orb startsWith].
  change (N.eqb backslash 92) with true. cbn [andb negb].
  unfold new_Range, isBefore. cbn [VSCode.line character].
  rewrite Z.ltb_irrefl, Z.eqb_refl.
  destruct (length pre <? length pre + (1 + length (trimEnd post))) eqn:E4;
    [reflexivity|apply Z.ltb_ge in E4; lia].
Qed.

Lemma evalPosition_negative_line (d : TextDocument) (position : Position) :
  VSCode.line position < 0 -> evalPosition d position = Normal None.
Proof.
  intros H. unfold evalPosition.
  destruct (character position =? 0); [reflexivity|].
  unfold getWordRangeAtPosition, new_Position at 1.
  destruct (VSCode.line position <? 0) eqn:El; [reflexivity|].
  apply Z.ltb_ge in El. lia.
Qed.

(** C4 (amended): for every non-absent result of the locator, the span
    starts at the last backslash of the line text before the cursor and
    ends at that position plus the length of the trimmed token; the end
    is at most the cursor column, and is the cursor column when the text
    before the cursor reaches the cursor and has no trailing white
    space. *)
Theorem locate_span (d : TextDocument) (position : Position)
        (r : Range) (w : jsstring) :
  evalPosition d position = Normal (Some (r, w)) ->
  exists pre post,
    textBeforeCursor d position = pre ++ backslash :: post
    /\ ~ In backslash post
    /\ w = trim (backslash :: post)
    /\ start r = mkPosition (VSCode.line position) (length pre)
    /\ end_ r = mkPosition (VSCode.line position) (length pre + length w)
    /\ length pre + length w <= character position
    /\ (length (textBeforeCursor d position) = character position ->
        trimEnd (textBeforeCursor d position) = textBeforeCursor d position ->
        end_ r = position).
Proof.
  intros H.
  destruct (Z.eq_dec (character position) 0) as [Hc|Hc].
  { rewrite evalPosition_line_start in H by assumption. discriminate. }
  destruct (Z_lt_le_dec (VSCode.line position) 0) as [Hl|Hl].
  { rewrite evalPosition_negative_line in H by assumption. discriminate. }
  destruct (in_dec N.eq_dec backslash (textBeforeCursor d position)) as [Hin|Hin].
  2:{ rewrite evalPosition_no_backslash in H by assumption. discriminate. }
  destruct (lastIndexOf_from_found backslash _ 0 ltac:(lia) Hin)
    as (pre & post & Htext & Hpost & _).
  rewrite (evalPosition_found d position pre post Hc Hl Htext Hpost) in H.
  injection H as <- <-. exists pre, post. cbn [start end_].
  pose proof (textBeforeCursor_length d position) as Hlen.
  rewrite Htext, length_app, length_cons in Hlen.
  pose proof (length_nonneg pre). pose proof (length_nonneg post).
  pose proof (trimEnd_length post) as Htrim.
  rewrite trim_backslash, length_cons.
  repeat split; try assumption; try reflexivity; [lia|].
  intros Hcur Hfix. rewrite Htext in Hfix.
  apply trimEnd_suffix_fixed in Hfix.
  rewrite trimEnd_cons in Hfix by reflexivity. injection Hfix as Hfix.
  rewrite Hfix. rewrite Htext, length_app, length_cons in Hcur.
  destruct position as [l c]. cbn [VSCode.line character] in *. f_equal. lia.
Qed.

Lemma locate_span_witness :
  evalPosition (document_of [js "x = \alpha"]) (mkPosition 0 10)
  = Normal (Some (mkRange (mkPosition 0 4) (mkPosition 0 10), js "\alpha"))
  /\ exists pre post,
       textBeforeCursor (document_of [js "x = \alpha"]) (mkPosition 0 10)
       = pre ++ backslash :: post
       /\ ~ In backslash post
       /\ js "\alpha" = trim (backslash :: post)
       /\ mkPosition 0 4 = mkPosition 0 (length pre)
       /\ mkPosition 0 10 = mkPosition 0 (length pre + length (js "\alpha"))
       /\ length pre + length (js "\alpha") <= 10.
Proof.
  split; [reflexivity|].
  destruct (locate_span (document_of [js "x = \alpha"]) (mkPosition 0 10)
              (mkRange (mkPosition 0 4) (mkPosition 0 10)) (js "\alpha") eq_refl)
    as (pre & post & H1 & H2 & H3 & H4 & H5 & H6 & _).
  exists pre, post. repeat split; assumption.
Defined.

(** C4 as stated fails when white space separates the token from the
    cursor: with the line [\a ] and the cursor at column 3 the span ends
    at column 2, where the trimmed token ends. *)
Lemma locate_span_counterexample :
  textBeforeCursor (document_of [js "\a "]) (mkPosition 0 3) = js "\a "
  /\ evalPosition (document_of [js "\a "]) (mkPosition 0 3)
     = Normal (Some (mkRange (mkPosition 0 0) (mkPosition 0 2), js "\a"))
  /\ end_ (mkRange (mkPosition 0 0) (mkPosition 0 2)) <> mkPosition 0 3.
Proof. split; [reflexivity|split; [reflexivity|discriminate]]. Qed.

(** C5: for every line text and cursor column, the locator returns
    absent whenever the cursor column is 0 or no backslash occurs in the
    line text before the cursor. *)
Theorem locate_absent (d : TextDocument) (position : Position) :
  character position = 0 \/ ~ In backslash (textBeforeCursor d position) ->
  evalPosition d position = Normal None.
Proof.
  intros [H|H].
  - now apply evalPosition_line_start.
  - now apply evalPosition_no_backslash.
Qed.

Lemma locate_absent_witness :
  evalPosition (document_of [js "\alpha"]) (mkPosition 0 0) = Normal None
  /\ ~ In backslash (textBeforeCursor (document_of [js "x = y"]) (mkPosition 0 5))
  /\ evalPosition (document_of [js "x = y"]) (mkPosition 0 5) = Normal None.
Proof.
  assert (H : ~ In backslash (textBeforeCursor (document_of [js "x = y"]) (mkPosition 0 5))).
  { vm_compute. intuition discriminate. }
  split; [|split; [exact H|]].
  - exact (locate_absent (document_of [js "\alpha"]) (mkPosition 0 0) (or_introl eq_refl)).
  - exact (locate_absent (document_of [js "x = y"]) (mkPosition 0 5) (or_intror H)).
Defined.

(** * Further properties of the code *)

(** ** The text before the cursor *)

Lemma substring_firstn (s : jsstring) (a b : Z) :
  0 <= a <= b -> b <= length s ->
  substring s a b = firstn (Z.to_nat (b - a)) (skipn (Z.to_nat a) s).
Proof.
  intros H Hb. unfold substring. unfold length in *.
  rewrite (Z.max_l a 0), (Z.max_l b 0) by lia.
  rewrite (Z.min_l a), (Z.min_l b) by lia.
  rewrite Z.min_l, Z.max_r by lia. reflexivity.
Qed.

Lemma range_ordered (a b : Position) :
  VSCode.line a = VSCode.line b -> character a <= character b ->
  new_Range a b = mkRange a b /\ new_Range b a = mkRange a b.
Proof.
  destruct a as [la ca], b as [lb cb]. cbn [VSCode.line character].
  intros <- Hab. unfold new_Range, isBefore. cbn [VSCode.line character].
  rewrite Z.ltb_irrefl, Z.eqb_refl. cbn [orb andb]. split.
  - destruct (ca <? cb) eqn:E; [reflexivity|].
    apply Z.ltb_ge in E. assert (ca = cb) by lia. now subst.
  - destruct (cb <? ca) eqn:E; [|reflexivity].
    apply Z.ltb_lt in E. lia.
Qed.

(** Whatever the order of its two ends, the range of the text before the
    cursor is validated to the range between the two validated ends. *)
Lemma textBeforeCursor_unfold (d : TextDocument) (l k : Z) :
  textBeforeCursor d (mkPosition l k)
  = let a := validatePosition d (mkPosition l 0) in
    let b := validatePosition d (mkPosition l k) in
    if isEmpty (mkRange a b) then []
    else substring (lineAt d (VSCode.line a)) (character a) (character b).
Proof.
  cbv zeta. unfold textBeforeCursor, getText, validateRange.
  cbn [VSCode.line character].
  destruct (validatePosition_pair d l k) as (Hl & H0 & _).
  destruct (range_ordered _ _ Hl (proj2 H0)) as [S1 S2].
  assert (E : new_Range (validatePosition d (start (new_Range (mkPosition l 0) (mkPosition l k))))
                        (validatePosition d (end_ (new_Range (mkPosition l 0) (mkPosition l k))))
              = mkRange (validatePosition d (mkPosition l 0))
                        (validatePosition d (mkPosition l k))).
  { unfold new_Range at 2 3.
    destruct (isBefore (mkPosition l 0) (mkPosition l k)); cbn [start end_];
      assumption. }
  rewrite E. cbn [start end_]. rewrite Hl, Z.eqb_refl. reflexivity.
Qed.

(** Inside the document the text before the cursor is the line cut at the
    cursor column. *)
Lemma textBeforeCursor_firstn (d : TextDocument) (l k : Z) :
  0 <= l < lineCount d -> 0 <= k ->
  textBeforeCursor d (mkPosition l k) = firstn (Z.to_nat k) (lineAt d l).
Proof.
  intros Hl Hk. rewrite textBeforeCursor_unfold. cbv zeta.
  unfold validatePosition. cbn [VSCode.line character].
  destruct (lineCount d =? 0) eqn:E0; [apply Z.eqb_eq in E0; lia|].
  destruct (l <? 0) eqn:E1; [apply Z.ltb_lt in E1; lia|].
  destruct (lineCount d <=? l) eqn:E2; [apply Z.leb_le in E2; lia|].
  pose proof (length_nonneg (lineAt d l)) as Hm.
  replace (0 <? 0) with false by reflexivity.
  destruct (length (lineAt d l) <? 0) eqn:E3; [apply Z.ltb_lt in E3; lia|].
  destruct (k <? 0) eqn:E4; [apply Z.ltb_lt in E4; lia|].
  destruct (length (lineAt d l) <? k) eqn:E5;
    unfold isEmpty; cbn [start end_ VSCode.line character]; rewrite Z.eqb_refl;
    cbn [andb].
  - apply Z.ltb_lt in E5.
    destruct (0 =? length (lineAt d l)) eqn:E6.
    + apply Z.eqb_eq in E6. unfold length in E6.
      destruct (lineAt d l); [now rewrite firstn_nil|simpl in E6; lia].
    + rewrite substring_firstn by lia. rewrite Z.sub_0_r. cbn [skipn Z.to_nat].
      unfold length. rewrite Nat2Z.id.
      rewrite firstn_all. symmetry. apply firstn_all2. unfold length in E5. lia.
  - apply Z.ltb_ge in E5.
    destruct (0 =? k) eqn:E6.
    + apply Z.eqb_eq in E6. subst k. reflexivity.
    + rewrite substring_firstn by lia. rewrite Z.sub_0_r. reflexivity.
Qed.

(** Outside the document, or left of column 0, there is no text. *)
Lemma textBeforeCursor_outside (d : TextDocument) (l k : Z) :
  l < 0 \/ lineCount d <= l \/ k < 0 ->
  textBeforeCursor d (mkPosition l k) = [].
Proof.
  intros H. rewrite textBeforeCursor_unfold. cbv zeta.
  assert (E : validatePosition d (mkPosition l 0) = validatePosition d (mkPosition l k)).
  { unfold validatePosition. cbn [VSCode.line character].
    destruct (lineCount d =? 0); [reflexivity|].
    destruct (l <? 0) eqn:E1; [reflexivity|].
    destruct (lineCount d <=? l) eqn:E2; [reflexivity|].
    apply Z.ltb_ge in E1. apply Z.leb_gt in E2.
    destruct H as [H|[H|H]]; try lia.
    pose proof (length_nonneg (lineAt d l)).
    replace (0 <? 0) with false by reflexivity.
    destruct (length (lineAt d l) <? 0) eqn:E3; [apply Z.ltb_lt in E3; lia|].
    destruct (k <? 0) eqn:E4; [reflexivity|apply Z.ltb_ge in E4; lia]. }
  rewrite E. unfold isEmpty. cbn [start end_]. now rewrite !Z.eqb_refl.
Qed.

Lemma textBeforeCursor_nonempty (d : TextDocument) (position : Position) :
  textBeforeCursor d position <> [] ->
  0 <= VSCode.line position < lineCount d
  /\ 0 < character position
  /\ textBeforeCursor d position
     = firstn (Z.to_nat (character position)) (lineAt d (VSCode.line position)).
Proof.
  destruct position as [l k]. cbn [VSCode.line character]. intros H.
  destruct (Z_lt_le_dec l 0) as [H1|H1].
  { exfalso. apply H. apply textBeforeCursor_outside. lia. }
  destruct (Z_lt_le_dec l (lineCount d)) as [H2|H2].
  2:{ exfalso. apply H. apply textBeforeCursor_outside. lia. }
  destruct (Z_lt_le_dec 0 k) as [H3|H3].
  2:{ exfalso. apply H. destruct (Z.eq_dec k 0) as [->|].
      - rewrite textBeforeCursor_firstn by lia. reflexivity.
      - apply textBeforeCursor_outside. lia. }
  repeat split; try lia. apply textBeforeCursor_firstn; lia.
Qed.

(** ** More about the locator *)

Lemma trimStart_suffix (s : jsstring) :
  exists ws, s = ws ++ trimStart s /\ forallb isWhiteSpace ws = true.
Proof.
  induction s as [|x s (ws & E & Hws)]; simpl.
  - now exists [].
  - destruct (isWhiteSpace x) eqn:Hx.
    + exists (x :: ws). simpl. rewrite Hx, Hws. split; [now f_equal|reflexivity].
    + now exists [].
Qed.

Lemma trimEnd_prefix (s : jsstring) :
  exists ws, s = trimEnd s ++ ws /\ forallb isWhiteSpace ws = true.
Proof.
  unfold trimEnd. destruct (trimStart_suffix (rev s)) as (ws & E & Hws).
  exists (rev ws). split.
  - rewrite <- rev_app_distr, <- E. symmetry. apply rev_involutive.
  - rewrite forallb_forall in *. intros x Hx. apply Hws. now apply in_rev.
Qed.



Lemma trimStart_white_app (ws s : jsstring) :
  forallb isWhiteSpace ws = true -> trimStart (ws ++ s) = trimStart s.
Proof.
  induction ws as [|x ws IH]; simpl; [reflexivity|].
  intros H. apply andb_true_iff in H as [Hx Hws]. rewrite Hx. now apply IH.
Qed.

Lemma trimEnd_app_white (s ws : jsstring) :
  forallb isWhiteSpace ws = true -> trimEnd (s ++ ws) = trimEnd s.
Proof.
  intros H. unfold trimEnd. rewrite rev_app_distr, trimStart_white_app; [reflexivity|].
  rewrite forallb_forall in *. intros x Hx. apply H. now apply in_rev.
Qed.

Lemma last_backslash (s : jsstring) :
  In backslash s ->
  exists pre post, s = pre ++ backslash :: post /\ ~ In backslash post.
Proof.
  intros H. destruct (lastIndexOf_from_found backslash s 0 ltac:(lia) H)
    as (pre & post & E & Hpost & _).
  now exists pre, post.
Qed.

(** What a non-absent answer of the locator is made of. *)
Lemma evalPosition_Some (d : TextDocument) (position : Position)
      (r : Range) (w : jsstring) :
  evalPosition d position = Normal (Some (r, w)) ->
  exists pre post,
    textBeforeCursor d position = pre ++ backslash :: post
    /\ ~ In backslash post
    /\ w = backslash :: trimEnd post
    /\ r = mkRange (mkPosition (VSCode.line position) (length pre))
                   (mkPosition (VSCode.line position) (length pre + length w)).
Proof.
  intros H.
  destruct (Z.eq_dec (character position) 0) as [Hc|Hc].
  { rewrite evalPosition_line_start in H by assumption. discriminate. }
  destruct (Z_lt_le_dec (VSCode.line position) 0) as [Hl|Hl].
  { rewrite evalPosition_negative_line in H by assumption. discriminate. }
  destruct (in_dec N.eq_dec backslash (textBeforeCursor d position)) as [Hin|Hin].
  2:{ rewrite evalPosition_no_backslash in H by assumption. discriminate. }
  destruct (last_backslash _ Hin) as (pre & post & Htext & Hpost).
  rewrite (evalPosition_found d position pre post Hc Hl Htext Hpost) in H.
  injection H as <- <-. exists pre, post.
  rewrite trim_backslash. repeat split; assumption.
Qed.

(** X1: the locator finds a token exactly when a backslash occurs in the
    text before the cursor; for a cursor inside the document that text
    is the cursor's line cut at the cursor column. *)
Theorem locate_found_iff (d : TextDocument) (position : Position) :
  ((exists r w, evalPosition d position = Normal (Some (r, w)))
   <-> In backslash (textBeforeCursor d position))
  /\ (evalPosition d position = Normal None
      <-> ~ In backslash (textBeforeCursor d position))
  /\ (0 <= VSCode.line position < lineCount d -> 0 <= character position ->
      textBeforeCursor d position
      = firstn (Z.to_nat (character position)) (lineAt d (VSCode.line position))).
Proof.
  assert (Hfound : In backslash (textBeforeCursor d position) ->
                   exists r w, evalPosition d position = Normal (Some (r, w))).
  { intros Hin.
    assert (Hne : textBeforeCursor d position <> []).
    { intros E. rewrite E in Hin. contradiction. }
    destruct (textBeforeCursor_nonempty d position Hne) as (Hl & Hc & _).
    destruct (last_backslash _ Hin) as (pre & post & Htext & Hpost).
    eexists. eexists.
    apply (evalPosition_found d position pre post); [lia|lia|assumption|assumption]. }
  split; [|split].
  - split; [|exact Hfound].
    intros (r & w & H). apply evalPosition_Some in H as (pre & post & E & _).
    rewrite E. apply in_or_app. right. now left.
  - split.
    + intros H Hin. destruct (Hfound Hin) as (r & w & E). congruence.
    + apply evalPosition_no_backslash.
  - intros Hl Hc. destruct position as [l k]. now apply textBeforeCursor_firstn.
Qed.

Lemma locate_found_iff_witness :
  textBeforeCursor (document_of [js "none"; js "x = \alpha!"]) (mkPosition 1 10)
  = js "x = \alpha".
Proof.
  destruct (locate_found_iff (document_of [js "none"; js "x = \alpha!"]) (mkPosition 1 10))
    as (_ & _ & H).
  rewrite H; [reflexivity|unfold lineCount; simpl; lia|simpl; lia].
Defined.



Lemma validatePosition_inside (d : TextDocument) (l k : Z) :
  0 <= l < lineCount d -> 0 <= k <= length (lineAt d l) ->
  validatePosition d (mkPosition l k) = mkPosition l k.
Proof.
  intros Hl Hk. unfold validatePosition. cbn [VSCode.line character].
  destruct (lineCount d =? 0) eqn:E0; [apply Z.eqb_eq in E0; lia|].
  destruct (l <? 0) eqn:E1; [apply Z.ltb_lt in E1; lia|].
  destruct (lineCount d <=? l) eqn:E2; [apply Z.leb_le in E2; lia|].
  destruct (k <? 0) eqn:E3; [apply Z.ltb_lt in E3; lia|].
  destruct (length (lineAt d l) <? k) eqn:E4; [apply Z.ltb_lt in E4; lia|].
  reflexivity.
Qed.

(** The text of a span that lies within one line of the document. *)
Lemma getText_inside (d : TextDocument) (l a b : Z) :
  0 <= l < lineCount d -> 0 <= a < b -> b <= length (lineAt d l) ->
  getText d (mkRange (mkPosition l a) (mkPosition l b))
  = firstn (Z.to_nat (b - a)) (skipn (Z.to_nat a) (lineAt d l)).
Proof.
  intros Hl Hab Hb. unfold getText, validateRange. cbn [start end_].
  rewrite !validatePosition_inside by lia.
  destruct (range_ordered (mkPosition l a) (mkPosition l b)) as [-> _];
    [reflexivity|cbn; lia|].
  unfold isEmpty. cbn [start end_ VSCode.line character].
  rewrite Z.eqb_refl. cbn [andb].
  destruct (a =? b) eqn:E; [apply Z.eqb_eq in E; lia|].
  apply substring_firstn; lia.
Qed.

Lemma evalPosition_span_text (d : TextDocument) (position : Position)
      (r : Range) (w : jsstring) :
  evalPosition d position = Normal (Some (r, w)) ->
  getText d r = w
  /\ VSCode.line (start r) = VSCode.line position
  /\ VSCode.line (end_ r) = VSCode.line position
  /\ 0 <= character (start r)
  /\ character (end_ r) = character (start r) + length w
  /\ 0 < length w.
Proof.
  intros H. apply evalPosition_Some in H as (pre & post & Htext & _ & Hw & ->).
  cbn [start end_ VSCode.line character].
  pose proof (length_nonneg pre) as Hpre.
  assert (Hlen : 0 < length w).
  { rewrite Hw, length_cons. pose proof (length_nonneg (trimEnd post)). lia. }
  repeat split; try lia.
  assert (Hne : textBeforeCursor d position <> []).
  { rewrite Htext. destruct pre; discriminate. }
  destruct (textBeforeCursor_nonempty d position Hne) as (Hl & Hc & Hcut).
  destruct (trimEnd_prefix post) as (ws & Hpost & _).
  assert (Hline : lineAt d (VSCode.line position)
                  = pre ++ w
                    ++ (ws ++ skipn (Z.to_nat (character position))
                                    (lineAt d (VSCode.line position)))).
  { rewrite <- (firstn_skipn (Z.to_nat (character position))
                             (lineAt d (VSCode.line position))) at 1.
    rewrite <- Hcut, Htext, Hw. rewrite Hpost at 1.
    rewrite <- !app_assoc. cbn [app]. rewrite <- app_assoc. reflexivity. }
  rewrite getText_inside; try lia.
  - rewrite Hline.
    replace (length pre + length w - length pre) with (length w) by lia.
    unfold length. rewrite !Nat2Z.id.
    rewrite skipn_app, skipn_all, Nat.sub_diag. cbn [app skipn].
    rewrite firstn_app, firstn_all, Nat.sub_diag. cbn [firstn].
    apply app_nil_r.
  - rewrite Hline, !length_app. pose proof (length_nonneg ws).
    pose proof (length_nonneg (skipn (Z.to_nat (character position))
                                     (lineAt d (VSCode.line position)))).
    lia.
Qed.

(** X3: the span the locator returns lies on the cursor's line, is as
    wide as the token, and the text of the document in that span is the
    token: deleting the span deletes the token and nothing else. *)
Theorem locate_span_text (d : TextDocument) (position : Position)
        (r : Range) (w : jsstring) :
  evalPosition d position = Normal (Some (r, w)) ->
  getText d r = w
  /\ VSCode.line (start r) = VSCode.line position
  /\ VSCode.line (end_ r) = VSCode.line position
  /\ 0 <= character (start r)
  /\ character (end_ r) = character (start r) + length w
  /\ 0 < length w.
Proof. apply evalPosition_span_text. Qed.

Lemma locate_span_text_witness :
  getText (document_of [js "a \b: \al pha  z"]) (mkRange (mkPosition 0 6) (mkPosition 0 13))
  = js "\al pha".
Proof.
  exact (proj1 (locate_span_text (document_of [js "a \b: \al pha  z"]) (mkPosition 0 15)
                  (mkRange (mkPosition 0 6) (mkPosition 0 13)) (js "\al pha") eq_refl)).
Defined.

Lemma firstn_plus (A : Type) (n m : nat) (l : list A) :
  firstn (n + m) l = firstn n l ++ firstn m (skipn n l).
Proof.
  revert l. induction n as [|n IH]; intros l; [reflexivity|].
  destruct l as [|x l]; simpl.
  - now rewrite firstn_nil.
  - now rewrite IH.
Qed.

Lemma white_not_backslash (ws : jsstring) :
  forallb isWhiteSpace ws = true -> ~ In backslash ws.
Proof.
  intros H Hin. rewrite forallb_forall in H. apply H in Hin. discriminate.
Qed.

(** X4: white space between the token and the cursor changes nothing:
    when the units of the line from column [k] to column [k'] are all
    white space, the locator answers at [k'] what it answers at [k]. *)
Theorem locate_ignores_trailing_space (d : TextDocument) (l k k' : Z) :
  0 <= l < lineCount d -> 0 <= k <= k' ->
  forallb isWhiteSpace
    (firstn (Z.to_nat (k' - k)) (skipn (Z.to_nat k) (lineAt d l))) = true ->
  evalPosition d (mkPosition l k') = evalPosition d (mkPosition l k).
Proof.
  intros Hl Hk Hws.
  set (ws := firstn (Z.to_nat (k' - k)) (skipn (Z.to_nat k) (lineAt d l))) in *.
  assert (Hk' : textBeforeCursor d (mkPosition l k')
                = textBeforeCursor d (mkPosition l k) ++ ws).
  { rewrite !textBeforeCursor_firstn by lia.
    replace (Z.to_nat k') with (Z.to_nat k + Z.to_nat (k' - k))%nat by lia.
    apply firstn_plus. }
  pose proof (white_not_backslash ws Hws) as Hnb.
  destruct (in_dec N.eq_dec backslash (textBeforeCursor d (mkPosition l k)))
    as [Hin|Hin].
  - assert (Hne : textBeforeCursor d (mkPosition l k) <> []).
    { intros E. rewrite E in Hin. contradiction. }
    destruct (textBeforeCursor_nonempty _ _ Hne) as (_ & Hc & _).
    cbn [character] in Hc.
    destruct (last_backslash _ Hin) as (pre & post & Htext & Hpost).
    rewrite (evalPosition_found d (mkPosition l k) pre post);
      [|cbn; lia|cbn; lia|assumption|assumption].
    rewrite (evalPosition_found d (mkPosition l k') pre (post ++ ws));
      [|cbn; lia|cbn; lia| |].
    + rewrite !trim_backslash, trimEnd_app_white by assumption. reflexivity.
    + rewrite Hk', Htext, <- app_assoc. reflexivity.
    + intros H. apply in_app_or in H as [H|H]; contradiction.
  - rewrite (evalPosition_no_backslash d (mkPosition l k)) by assumption.
    apply evalPosition_no_backslash. rewrite Hk'.
    intros H. apply in_app_or in H as [H|H]; contradiction.
Qed.

Lemma locate_ignores_trailing_space_witness :
  evalPosition (document_of [js "x = \alpha   y"]) (mkPosition 0 13)
  = Normal (Some (mkRange (mkPosition 0 4) (mkPosition 0 10), js "\alpha")).
Proof.
  rewrite (locate_ignores_trailing_space (document_of [js "x = \alpha   y"]) 0 10 13).
  - reflexivity.
  - unfold lineCount. simpl. lia.
  - lia.
  - reflexivity.
Defined.

(** ** More about the expander *)

Lemma subs_values_unmapped : values_unmapped subs = true.
Proof. reflexivity. Qed.

Lemma sups_values_unmapped : values_unmapped sups = true.
Proof. reflexivity. Qed.

Lemma mapped_char_fixed (mapper : object) (x y : code_unit) :
  values_unmapped mapper = true ->
  mapped_char mapper [] x = [y] -> mapped_char mapper [] y = [y].
Proof.
  intros Hv. unfold mapped_char. simpl app.
  destruct (get mapper [x]) as [v|] eqn:E.
  - intros ->. apply get_In in E. unfold values_unmapped in Hv.
    rewrite forallb_forall in Hv. specialize (Hv _ E). simpl in Hv.
    destruct (get mapper [y]); [discriminate|reflexivity].
  - intros [= <-]. now rewrite E.
Qed.

Lemma mapped_string_fixed (mapper : object) (s : jsstring) :
  single_unit_values mapper = true -> values_unmapped mapper = true ->
  flat_map (mapped_char mapper []) (flat_map (mapped_char mapper []) s)
  = flat_map (mapped_char mapper []) s.
Proof.
  intros Hs Hv. induction s as [|x s IH]; [reflexivity|]. simpl.
  destruct (single_unit_image mapper x Hs) as [y [Hy _]]. rewrite Hy. simpl.
  rewrite (mapped_char_fixed mapper x y Hv Hy). simpl. now rewrite IH.
Qed.

Lemma changed_or_absent_Some (result original r : jsstring) :
  changed_or_absent result original = Some r -> r = result /\ result <> original.
Proof.
  unfold changed_or_absent.
  destruct (list_eq_dec N.eq_dec result original); [discriminate|].
  intros [= <-]. now split.
Qed.

Lemma changed_or_absent_same (s : jsstring) : changed_or_absent s s = None.
Proof. now apply changed_or_absent_None. Qed.

(** X5: a subscript or superscript expansion is final: no glyph the
    tables produce has an entry of its own, so expanding the result
    again, under the same modifier, gives absent. *)
Theorem expand_subscript_final (this : UnicodeMaths) (s r : jsstring) :
  (doWord this (js "\_" ++ s) = Normal (Some r) ->
   doWord this (js "\_" ++ r) = Normal None)
  /\ (doWord this (js "\^" ++ s) = Normal (Some r) ->
      doWord this (js "\^" ++ r) = Normal None).
Proof.
  split; intros H.
  - rewrite doWord_subscript in H. injection H as H.
    apply changed_or_absent_Some in H as [-> _].
    rewrite doWord_subscript.
    rewrite (mapped_string_fixed subs s subs_single_unit subs_values_unmapped).
    now rewrite changed_or_absent_same.
  - rewrite doWord_superscript in H. injection H as H.
    apply changed_or_absent_Some in H as [-> _].
    rewrite doWord_superscript.
    rewrite (mapped_string_fixed sups s sups_single_unit sups_values_unmapped).
    now rewrite changed_or_absent_same.
Qed.

Lemma expand_subscript_final_witness :
  doWord sample (js "\_" ++ [0x2093%N; 0x51%N; 0x2082%N]) = Normal None
  /\ doWord sample (js "\^" ++ [0x02E3%N; 0x00B2%N]) = Normal None.
Proof.
  split.
  - exact (proj1 (expand_subscript_final sample (js "xQ2") [0x2093%N; 0x51%N; 0x2082%N])
             eq_refl).
  - exact (proj2 (expand_subscript_final sample (js "x2") [0x02E3%N; 0x00B2%N]) eq_refl).
Defined.

Lemma mapToBoldIt_spec (this : UnicodeMaths) (prefix s : jsstring) (bold : bool) :
  List.length prefix = 3%nat ->
  mapToBoldIt this (prefix ++ s) bold
  = changed_or_absent
      (flat_map (mapped_char_nonempty (codes this)
                   (if bold then js "\mbf" else js "\mit")) s) s.
Proof.
  intros Hp. unfold mapToBoldIt.
  replace 3 with (length prefix) by (unfold length; now rewrite Hp).
  rewrite slice_app, join_map_units, eqb_changed. f_equal.
  apply flat_map_ext. intros x. apply or_string_nonempty.
Qed.

Ltac second_unit :=
  match goal with
  | |- charAt (?p ++ ?s) 1 <> _ =>
      let p' := eval vm_compute in p in
      change (p ++ s) with (p' ++ s); cbn [app]; rewrite charAt_1; discriminate
  end.

Lemma doWord_mbf (this : UnicodeMaths) (s : jsstring) :
  ~ In colon s ->
  doWord this (js "\mbf:" ++ s)
  = Normal (changed_or_absent
              (flat_map (mapped_char_nonempty (codes this) (js "\mbf")) s) s).
Proof.
  intros Hs. rewrite doWord_generic;
    [|reflexivity|reflexivity|second_unit|second_unit|reflexivity|reflexivity|].
  - apply (mapTo_once this (js "\mbf") s); [|assumption].
    vm_compute. intuition discriminate.
  - simpl. tauto.
Qed.

Lemma doWord_mit (this : UnicodeMaths) (s : jsstring) :
  ~ In colon s ->
  doWord this (js "\mit:" ++ s)
  = Normal (changed_or_absent
              (flat_map (mapped_char_nonempty (codes this) (js "\mit")) s) s).
Proof.
  intros Hs. rewrite doWord_generic;
    [|reflexivity|reflexivity|second_unit|second_unit|reflexivity|reflexivity|].
  - apply (mapTo_once this (js "\mit") s); [|assumption].
    vm_compute. intuition discriminate.
  - simpl. tauto.
Qed.

(** X6: [\b:] is a shorthand of the modifier [\mbf:]: on a payload
    without a colon the two tokens expand alike.  (With a colon in the
    payload they differ: [\b:] maps the colon like any character, the
    modifier form has too many colons and gives absent.) *)
Theorem bold_is_mbf_modifier (this : UnicodeMaths) (s : jsstring) :
  ~ In colon s ->
  doWord this (js "\b:" ++ s) = doWord this (js "\mbf:" ++ s).
Proof.
  intros Hs. now rewrite doWord_bold, doWord_mbf.
Qed.

Lemma bold_is_mbf_modifier_witness :
  doWord sample (js "\b:" ++ js "xy") = doWord sample (js "\mbf:" ++ js "xy")
  /\ doWord sample (js "\b:" ++ js "x:y") = Normal (Some [0xD835%N; 0xDC31%N; 58%N; 121%N])
  /\ doWord sample (js "\mbf:" ++ js "x:y") = Normal None.
Proof.
  split; [|split; reflexivity].
  apply (bold_is_mbf_modifier sample (js "xy")).
  vm_compute. intuition discriminate.
Defined.

(** X7: the italic branch of [mapToBoldIt], which [doWord] no longer
    calls, computes what the modifier [\mit:] computes: for a word made
    of three units and a payload without a colon, [mapToBoldIt(word,
    false)] is the expansion of [\mit:] + payload. *)
Theorem italic_is_mit_modifier (this : UnicodeMaths) (prefix s : jsstring) :
  List.length prefix = 3%nat -> ~ In colon s ->
  Normal (mapToBoldIt this (prefix ++ s) false) = doWord this (js "\mit:" ++ s).
Proof.
  intros Hp Hs. now rewrite mapToBoldIt_spec, doWord_mit.
Qed.

Lemma italic_is_mit_modifier_witness :
  Normal (mapToBoldIt blank (js "\i:" ++ js "xy") false)
  = doWord blank (js "\mit:" ++ js "xy").
Proof.
  apply (italic_is_mit_modifier blank (js "\i:") (js "xy")); [reflexivity|].
  vm_compute. intuition discriminate.
Defined.

Lemma doWord_colon_first (this : UnicodeMaths) (s : jsstring) :
  doWord this (js "\:" ++ s)
  = Normal (or_null (get (codes this) (js "\:" ++ s))).
Proof.
  assert (Hc : charAt (js "\:" ++ s) 1 = js ":") by apply charAt_1.
  assert (Hi : startsWith (js "\:" ++ s) (js "\i:") = false) by reflexivity.
  assert (Hb : startsWith (js "\:" ++ s) (js "\b:") = false) by reflexivity.
  assert (Hs : startsWith (js "\:" ++ s) (js "\:") = true) by reflexivity.
  unfold doWord. cbv zeta. rewrite Hc, Hi, Hb, Hs. reflexivity.
Qed.

(** X8: a token that starts with [\:] is never split at its colons,
    however many it has: the whole token is looked up in the primary
    table, and the result is its entry, or absent when there is no entry
    or the entry is the empty string. *)
Theorem expand_colon_first (this : UnicodeMaths) (s : jsstring) :
  (forall u e, get (codes this) (js "\:" ++ s) = Some (u :: e) ->
     doWord this (js "\:" ++ s) = Normal (Some (u :: e)))
  /\ (get (codes this) (js "\:" ++ s) = None ->
      doWord this (js "\:" ++ s) = Normal None)
  /\ (get (codes this) (js "\:" ++ s) = Some [] ->
      doWord this (js "\:" ++ s) = Normal None).
Proof.
  rewrite doWord_colon_first. repeat split.
  - intros u e ->. reflexivity.
  - intros ->. reflexivity.
  - intros ->. reflexivity.
Qed.

Lemma expand_colon_first_witness :
  doWord punctuation (js "\:" ++ js "a:b") = Normal (Some (js "!"))
  /\ doWord punctuation (js "\:" ++ js "x:") = Normal None
  /\ doWord punctuation (js "\:" ++ js "") = Normal None.
Proof.
  split; [|split].
  - exact (proj1 (expand_colon_first punctuation (js "a:b")) 33%N [] eq_refl).
  - exact (proj1 (proj2 (expand_colon_first punctuation (js "x:"))) eq_refl).
  - exact (proj2 (proj2 (expand_colon_first punctuation (js ""))) eq_refl).
Defined.




(** ** The command [commit] *)

Lemma commitSelection_spec (this : UnicodeMaths) (editor : TextEditor)
      (st : progress) (v : Range) :
  commitSelection this editor st v
  = Normal (match replacementAt this (document editor) (start v) with
            | Some (target, text) =>
                mkProgress (edits st ++ [Delete target; Insert (start target) text]) true
            | None => st
            end).
Proof.
  unfold commitSelection, replacementAt. cbv zeta.
  destruct (evalPosition_total (document editor) (start v)) as [tw Htw].
  rewrite Htw. cbn [bind].
  destruct tw as [[target word]|]; [|reflexivity].
  apply evalPosition_word in Htw as [Ht _]. rewrite Ht. cbn [negb].
  destruct (doWord_total this word) as [changed Hch]. rewrite Hch. cbn [bind].
  destruct changed as [[|u text]|]; reflexivity.
Qed.

Lemma commitSelections_spec (this : UnicodeMaths) (editor : TextEditor)
      (vs : list Range) (st : progress) :
  exists st',
    commitSelections this editor st vs = Normal st'
    /\ edits st' = edits st ++ flat_map (replacementEdits this (document editor)) vs
    /\ c st' = c st || negb (match flat_map (replacementEdits this (document editor)) vs
                             with [] => true | _ :: _ => false end).
Proof.
  revert st. induction vs as [|v vs IH]; intros st.
  - exists st. cbn. rewrite app_nil_r, orb_false_r. auto.
  - cbn [commitSelections flat_map]. rewrite commitSelection_spec. cbn [bind].
    unfold replacementEdits at 1 3.
    destruct (replacementAt this (document editor) (start v)) as [[target text]|].
    + destruct (IH (mkProgress (edits st ++ [Delete target; Insert (start target) text]) true))
        as (st' & E & He & Hc).
      exists st'. cbn [edits c] in He, Hc. rewrite E, He, Hc.
      rewrite <- app_assoc. cbn [app negb orb]. rewrite orb_true_r. auto.
    + destruct (IH st) as (st' & E & He & Hc). exists st'. cbn [app]. auto.
Qed.

Lemma commit_spec (this : UnicodeMaths) (editor : TextEditor) (key : jsstring) :
  key <> [] -> selections editor <> [] ->
  commit this (Some editor) key
  = Normal (flat_map (replacementEdits this (document editor)) (selections editor),
            match flat_map (replacementEdits this (document editor)) (selections editor)
            with
            | [] => doKey key
            | _ :: _ => if eqb key SPACE_KEY then doKey key else []
            end).
Proof.
  intros Hkey Hsel. unfold commit, selection.
  destruct key as [|k key]; [contradiction|]. cbn [truthy negb].
  destruct (selections editor) as [|v vs] eqn:Evs; [contradiction|].
  cbn [hd_error]. rewrite <- Evs.
  destruct (commitSelections_spec this editor (selections editor) (mkProgress [] false))
    as (st' & -> & He & Hc).
  cbn [bind edits c app orb] in *. rewrite He, Hc.
  destruct (flat_map _ _); cbn [negb orb]; [reflexivity|].
  destruct (eqb (k :: key) SPACE_KEY); reflexivity.
Qed.

(** X10: [commit] never throws, and passes the key on by this rule: the
    space key always types a space; any other key is executed as a
    command exactly when no selection had anything to replace.  With an
    empty key or no editor nothing is done at all. *)
Theorem commit_key_propagation (this : UnicodeMaths)
        (activeTextEditor : option TextEditor) (key : jsstring) :
  exists es cmds,
    commit this activeTextEditor key = Normal (es, cmds)
    /\ (key = [] \/ activeTextEditor = None -> es = [] /\ cmds = [])
    /\ (forall editor,
          key <> [] -> activeTextEditor = Some editor -> selections editor <> [] ->
          (key = SPACE_KEY ->
           cmds = [executeCommand (js "type")
                     [(js "source", js "keyboard"); (js "text", js " ")]])
          /\ (key <> SPACE_KEY -> es = [] -> cmds = [executeCommand key []])
          /\ (key <> SPACE_KEY -> es <> [] -> cmds = [])).
Proof.
  destruct key as [|k key].
  { exists [], []. split; [reflexivity|]. split; [intros _; now split|].
    intros e H. contradiction. }
  destruct activeTextEditor as [editor|].
  2:{ exists [], []. split; [reflexivity|]. split; [intros _; now split|].
      intros e _ H. discriminate. }
  destruct (selections editor) as [|v vs] eqn:Evs.
  { exists [], []. unfold commit, selection. rewrite Evs. cbn.
    split; [reflexivity|]. split; [intros _; now split|].
    intros e _ [= <-] H. congruence. }
  eexists. eexists. split.
  { apply commit_spec; [discriminate|congruence]. }
  split; [intros [H|H]; discriminate|].
  intros e _ [= <-] _. rewrite Evs.
  destruct (flat_map _ (v :: vs)) as [|x l]; split; [|split| |split].
  - intros ->. reflexivity.
  - intros Hk _. unfold doKey. apply eqb_neq in Hk. now rewrite Hk.
  - intros _ H. contradiction.
  - intros ->. reflexivity.
  - intros _ H. discriminate.
  - intros Hk _. apply eqb_neq in Hk. now rewrite Hk.
Qed.

Lemma commit_key_propagation_witness :
  exists es cmds,
    commit sample
      (Some (mkTextEditor (document_of [js "\beta "])
               [mkRange (mkPosition 0 6) (mkPosition 0 6)])) (js "tab")
    = Normal (es, cmds)
    /\ es <> [] /\ cmds = [].
Proof.
  destruct (commit_key_propagation sample
              (Some (mkTextEditor (document_of [js "\beta "])
                       [mkRange (mkPosition 0 6) (mkPosition 0 6)])) (js "tab"))
    as (es & cmds & E & _ & H).
  exists es, cmds. split; [exact E|].
  assert (Hes : es <> []).
  { vm_compute in E. injection E as <- _. discriminate. }
  split; [exact Hes|].
  destruct (H _ ltac:(discriminate) eq_refl ltac:(discriminate)) as (_ & _ & H3).
  apply H3; [discriminate|exact Hes].
Defined.

Lemma replacementAt_Some (this : UnicodeMaths) (d : TextDocument)
      (position : Position) (target : Range) (text : jsstring) :
  replacementAt this d position = Some (target, text) <->
  exists word,
    evalPosition d position = Normal (Some (target, word))
    /\ doWord this word = Normal (Some text).
Proof.
  unfold replacementAt. split.
  - destruct (evalPosition d position) as [[[t w]|]|e]; try discriminate.
    destruct (doWord this w) as [[[|u x]|]|e] eqn:E; try discriminate.
    intros [= <- <-]. now exists w.
  - intros (word & -> & E). rewrite E.
    destruct text as [|u x]; [now apply doWord_nonempty in E|reflexivity].
Qed.

Lemma replacementAt_None (this : UnicodeMaths) (d : TextDocument)
      (position : Position) :
  replacementAt this d position = None <->
  evalPosition d position = Normal None
  \/ exists target word,
       evalPosition d position = Normal (Some (target, word))
       /\ doWord this word = Normal None.
Proof.
  unfold replacementAt. split.
  - destruct (evalPosition_total d position) as [[[t w]|] E]; rewrite E; [|now left].
    destruct (doWord_total this w) as [[[|u x]|] E']; rewrite E'; try discriminate.
    + now apply doWord_nonempty in E'.
    + intros _. right. now exists t, w.
  - intros [->|(t & w & -> & ->)]; reflexivity.
Qed.

(** X11: the edits [commit] asks for are, selection by selection and in
    the order of the selections, a deletion of the located span followed
    by an insertion of the expansion at the start of that span, for the
    selections whose token has an expansion, and nothing for the others;
    the inserted text is never empty. *)
Theorem commit_edits (this : UnicodeMaths) (editor : TextEditor) (key : jsstring) :
  key <> [] -> selections editor <> [] ->
  (exists cmds,
     commit this (Some editor) key
     = Normal (flat_map (replacementEdits this (document editor)) (selections editor),
               cmds))
  /\ (forall v target word text,
        evalPosition (document editor) (start v) = Normal (Some (target, word)) ->
        doWord this word = Normal (Some text) ->
        text <> []
        /\ replacementEdits this (document editor) v
           = [Delete target; Insert (start target) text])
  /\ (forall v target word,
        evalPosition (document editor) (start v) = Normal (Some (target, word)) ->
        doWord this word = Normal None ->
        replacementEdits this (document editor) v = [])
  /\ (forall v,
        evalPosition (document editor) (start v) = Normal None ->
        replacementEdits this (document editor) v = []).
Proof.
  intros Hkey Hsel. split; [|split; [|split]].
  - eexists. now apply commit_spec.
  - intros v target word text Hev Hdo. split.
    + intros ->. now apply doWord_nonempty in Hdo.
    + unfold replacementEdits.
      assert (E : replacementAt this (document editor) (start v) = Some (target, text)).
      { apply replacementAt_Some. now exists word. }
      now rewrite E.
  - intros v target word Hev Hdo. unfold replacementEdits.
    assert (E : replacementAt this (document editor) (start v) = None).
    { apply replacementAt_None. right. now exists target, word. }
    now rewrite E.
  - intros v Hev. unfold replacementEdits.
    assert (E : replacementAt this (document editor) (start v) = None).
    { apply replacementAt_None. now left. }
    now rewrite E.
Qed.

Lemma commit_edits_witness :
  exists cmds,
    commit sample
      (Some (mkTextEditor (document_of [js "x = \alpha"; js "\gamma"; js "\beta "])
               [ mkRange (mkPosition 0 10) (mkPosition 0 10);
                 mkRange (mkPosition 1 6) (mkPosition 1 6);
                 mkRange (mkPosition 2 6) (mkPosition 2 6) ]))
      (js "tab")
    = Normal ([ Delete (mkRange (mkPosition 0 4) (mkPosition 0 10));
                Insert (mkPosition 0 4) [0x03B1%N];
                Delete (mkRange (mkPosition 2 0) (mkPosition 2 5));
                Insert (mkPosition 2 0) [0x03B2%N] ], cmds).
Proof.
  destruct (commit_edits sample
              (mkTextEditor (document_of [js "x = \alpha"; js "\gamma"; js "\beta "])
                 [ mkRange (mkPosition 0 10) (mkPosition 0 10);
                   mkRange (mkPosition 1 6) (mkPosition 1 6);
                   mkRange (mkPosition 2 6) (mkPosition 2 6) ])
              (js "tab") ltac:(discriminate) ltac:(discriminate))
    as [[cmds E] _].
  exists cmds. exact E.
Defined.

(** X12: what [commit] replaces at a cursor is the token itself: the
    span it deletes lies on the cursor's line, ends at or before the
    cursor, and holds in the document the very token whose expansion is
    inserted; that expansion is not the empty string. *)
Theorem commit_replaces_token (this : UnicodeMaths) (d : TextDocument)
        (v target : Range) (text : jsstring) :
  replacementEdits this d v = [Delete target; Insert (start target) text] ->
  doWord this (getText d target) = Normal (Some text)
  /\ text <> []
  /\ startsWith (getText d target) (js "\") = true
  /\ VSCode.line (start target) = VSCode.line (start v)
  /\ VSCode.line (end_ target) = VSCode.line (start v)
  /\ 0 <= character (start target) < character (end_ target)
  /\ character (end_ target) <= character (start v).
Proof.
  unfold replacementEdits.
  destruct (replacementAt this d (start v)) as [[t x]|] eqn:E; [|discriminate].
  intros H. injection H as H1 _ H3. subst t x.
  apply replacementAt_Some in E as (word & Hev & Hdo).
  destruct (evalPosition_span_text d (start v) target word Hev)
    as (Htext & Hl1 & Hl2 & H0 & Hend & Hlen).
  destruct (evalPosition_word d (start v) target word Hev) as [_ Hb].
  rewrite Htext.
  assert (Hcur : character (end_ target) <= character (start v)).
  { apply evalPosition_Some in Hev as (pre & post & Ht & _ & Hw & ->).
    cbn [end_ character].
    pose proof (textBeforeCursor_length d (start v)) as L.
    rewrite Ht, length_app, length_cons in L.
    pose proof (trimEnd_length post). pose proof (length_nonneg pre).
    pose proof (length_nonneg (trimEnd post)).
    rewrite Hw, length_cons. lia. }
  repeat split; try assumption; try lia.
  intros ->. now apply doWord_nonempty in Hdo.
Qed.

Lemma commit_replaces_token_witness :
  doWord sample
    (getText (document_of [js "x = \beta   "]) (mkRange (mkPosition 0 4) (mkPosition 0 9)))
  = Normal (Some [0x03B2%N]).
Proof.
  exact (proj1 (commit_replaces_token sample (document_of [js "x = \beta   "])
                  (mkRange (mkPosition 0 12) (mkPosition 0 12))
                  (mkRange (mkPosition 0 4) (mkPosition 0 9)) [0x03B2%N] eq_refl)).
Defined.

Lemma replacementEdits_none (this : UnicodeMaths) (d : TextDocument)
      (vs : list Range) :
  (forall v, In v vs -> ~ In backslash (textBeforeCursor d (start v))) ->
  flat_map (replacementEdits this d) vs = [].
Proof.
  induction vs as [|v vs IH]; intros Hno; [reflexivity|].
  cbn [flat_map]. rewrite IH by (intros v' Hv'; apply Hno; now right).
  unfold replacementEdits, replacementAt.
  rewrite evalPosition_no_backslash; [reflexivity|]. apply Hno. now left.
Qed.

(** X13: when no selection has a backslash before its start, [commit]
    asks for no edit and passes the key on. *)
Theorem commit_without_token (this : UnicodeMaths) (editor : TextEditor)
        (key : jsstring) :
  key <> [] -> selections editor <> [] ->
  (forall v, In v (selections editor) ->
     ~ In backslash (textBeforeCursor (document editor) (start v))) ->
  commit this (Some editor) key = Normal ([], doKey key).
Proof.
  intros Hkey Hsel Hno. rewrite commit_spec by assumption.
  now rewrite replacementEdits_none.
Qed.

Lemma commit_without_token_witness :
  commit sample
    (Some (mkTextEditor (document_of [js "plain"; js ""])
             [ mkRange (mkPosition 0 5) (mkPosition 0 5);
               mkRange (mkPosition 1 0) (mkPosition 1 0) ]))
    (js "tab")
  = Normal ([], [executeCommand (js "tab") []]).
Proof.
  apply (commit_without_token sample
           (mkTextEditor (document_of [js "plain"; js ""])
              [ mkRange (mkPosition 0 5) (mkPosition 0 5);
                mkRange (mkPosition 1 0) (mkPosition 1 0) ])
           (js "tab")); try discriminate.
  intros v [<-|[<-|[]]]; vm_compute; intuition discriminate.
Defined.

(** ** Completion, the locator and the expander together *)




Lemma doWord_direct (this : UnicodeMaths) (word : jsstring) :
  charAt word 1 <> js "_" -> charAt word 1 <> js "^" -> ~ In colon word ->
  doWord this word = Normal (or_null (get (codes this) word)).
Proof.
  intros Hsub Hsup Hcolon.
  assert (Hinc : includes word (js ":") = false).
  { destruct (includes word (js ":")) eqn:E; [|reflexivity].
    apply (includes_unit word colon) in E. contradiction. }
  assert (Hi : startsWith word (js "\i:") = false).
  { destruct (startsWith word (js "\i:")) eqn:E; [|reflexivity].
    apply startsWith_iff in E as [t ->]. exfalso. apply Hcolon. simpl. tauto. }
  assert (Hb : startsWith word (js "\b:") = false).
  { destruct (startsWith word (js "\b:")) eqn:E; [|reflexivity].
    apply startsWith_iff in E as [t ->]. exfalso. apply Hcolon. simpl. tauto. }
  unfold doWord. cbv zeta. apply eqb_neq in Hsub, Hsup.
  rewrite Hsub, Hsup, Hi, Hb, Hinc, andb_false_r. reflexivity.
Qed.

(** X15: completion and expansion agree: for an offered item whose label
    has no colon and whose second character is neither [_] nor [^], and
    whose inserted text is not empty, typing the label in full and
    committing inserts the same text as accepting the item. *)
Theorem completion_agrees_with_expand (this : UnicodeMaths) (d : TextDocument)
        (position : Position) (items : list CompletionItem)
        (item : CompletionItem) (u : code_unit) (e : jsstring) :
  provideCompletionItems this d position = Normal items ->
  In item items ->
  charAt (label item) 1 <> js "_" -> charAt (label item) 1 <> js "^" ->
  ~ In colon (label item) ->
  insertText item = Some (u :: e) ->
  doWord this (label item) = Normal (Some (u :: e)).
Proof.
  intros Hp Hitem Hsub Hsup Hcolon Hins.
  assert (Hget : insertText item = get (codes this) (label item)).
  { unfold provideCompletionItems in Hp.
    destruct (evalPosition d position) as [[[target word]|]|x]; cbn [bind] in Hp;
      try discriminate.
    - destruct (truthy word); cbn [negb] in Hp; injection Hp as <-;
        [|contradiction].
      apply completionItemsFor_In in Hitem. tauto.
    - injection Hp as <-. contradiction. }
  rewrite doWord_direct by assumption. now rewrite <- Hget, Hins.
Qed.

Lemma completion_agrees_with_expand_witness :
  doWord sample (js "\aleph") = Normal (Some [0x2135%N]).
Proof.
  assert (Hsub : charAt (js "\aleph") 1 <> js "_") by (vm_compute; discriminate).
  assert (Hsup : charAt (js "\aleph") 1 <> js "^") by (vm_compute; discriminate).
  assert (Hc : ~ In colon (js "\aleph")) by (vm_compute; intuition discriminate).
  exact (completion_agrees_with_expand sample (document_of [js "x = \al"])
           (mkPosition 0 7) _
           (mkCompletionItem (js "\aleph") (Some [0x2135%N]) (Some [0x2135%N])
              (mkRange (mkPosition 0 4) (mkPosition 0 7)))
           0x2135%N [] eq_refl (or_intror (or_introl eq_refl)) Hsub Hsup Hc eq_refl).
Defined.

Lemma evalPosition_text (d d' : TextDocument) (position : Position) :
  textBeforeCursor d position = textBeforeCursor d' position ->
  evalPosition d position = evalPosition d' position.
Proof.
  intros E.
  destruct (in_dec N.eq_dec backslash (textBeforeCursor d position)) as [Hin|Hin].
  - assert (Hne : textBeforeCursor d position <> []).
    { intros H. rewrite H in Hin. contradiction. }
    destruct (textBeforeCursor_nonempty d position Hne) as (Hl & Hc & _).
    destruct (last_backslash _ Hin) as (pre & post & Htext & Hpost).
    rewrite (evalPosition_found d position pre post); try assumption; try lia.
    rewrite (evalPosition_found d' position pre post); try assumption; try lia.
    + reflexivity.
    + now rewrite <- E.
  - rewrite (evalPosition_no_backslash d) by assumption.
    rewrite (evalPosition_no_backslash d'); [reflexivity|]. now rewrite <- E.
Qed.

(** X16: the locator reads nothing but the cursor's line up to the
    cursor: two documents whose lines at the cursor agree up to the
    cursor column get the same answer, whatever follows the cursor and
    whatever the other lines hold. *)
Theorem locate_reads_line_prefix (d d' : TextDocument) (l k : Z) :
  0 <= l < lineCount d -> 0 <= l < lineCount d' -> 0 <= k ->
  firstn (Z.to_nat k) (lineAt d l) = firstn (Z.to_nat k) (lineAt d' l) ->
  evalPosition d (mkPosition l k) = evalPosition d' (mkPosition l k).
Proof.
  intros Hl Hl' Hk E. apply evalPosition_text.
  now rewrite !textBeforeCursor_firstn.
Qed.

Lemma locate_reads_line_prefix_witness :
  evalPosition (document_of [js "one"; js "a \pi b"]) (mkPosition 1 5)
  = evalPosition (document_of [js "\x"; js "a \pi \rho"; js "\y"]) (mkPosition 1 5).
Proof.
  apply locate_reads_line_prefix.
  - unfold lineCount. simpl. lia.
  - unfold lineCount. simpl. lia.
  - lia.
  - reflexivity.
Defined.
